(** * Domainfolio migration runner: statement splitter and sequential executor

    A shallow embedding of [scripts/src/supabase-migrate.js] and of the
    command-line wrapper [scripts/run-migration.js].

    - JavaScript strings are sequences of UTF-16 code units, modelled as
      [list N]; [trim], [startsWith], [endsWith], [includes], [split] and the
      global match of [/\$\$/g] are written out on that representation.
    - [parseSQLStatements] is the line scanner of the source: a left fold of
      the loop body over [sql.split('\n')], followed by the trailing-buffer
      rule.
    - [runMigration], [runMigrationFile] and [main] are asynchronous code
      talking to a remote endpoint and to the file system.  They are
      written in a small state-and-exception monad over a world that holds
      the (arbitrary) state of the remote executor and the trace of the
      calls made so far.  Console output is not part of the model: it
      never influences control flow or results.
    - [getAccessToken], [clearTokenCache] and the request made by
      [executeSQL] are modelled on the token cache and an arbitrary
      network; plugged in as the endpoint they give the runs of
      [runMigration] over the real [executeSQL].  The printed label of a
      statement and the two figures of the dashboard page are pure
      functions. *)

From Stdlib Require Import List NArith ZArith Bool Arith Lia String Ascii.
Import ListNotations.

Set Implicit Arguments.

(** ** JavaScript strings *)

Module Js.

Definition codeunit := N.
Definition jsstring := list codeunit.

(** An ASCII literal of the source, as code units. *)
Definition lit (s : string) : jsstring :=
  map N_of_ascii (list_ascii_of_string s).

(** The characters removed by [String.prototype.trim]: ECMAScript
    WhiteSpace (TAB, VT, FF, SP, NBSP, ZWNBSP and the Unicode space
    separators) and LineTerminator (LF, CR, LS, PS). *)
Definition isWhiteSpace (c : codeunit) : bool :=
  ((9 <=? c) && (c <=? 13)            (* TAB LF VT FF CR *)
   || (c =? 32)                       (* SP *)
   || (c =? 160)                      (* NBSP *)
   || (c =? 5760)                     (* U+1680 *)
   || ((8192 <=? c) && (c <=? 8202))  (* U+2000 .. U+200A *)
   || (c =? 8232) || (c =? 8233)      (* LS PS *)
   || (c =? 8239)                     (* U+202F *)
   || (c =? 8287)                     (* U+205F *)
   || (c =? 12288)                    (* U+3000 *)
   || (c =? 65279))%N.                (* U+FEFF *)

Fixpoint trimStart (s : jsstring) : jsstring :=
  match s with
  | [] => []
  | c :: s' => if isWhiteSpace c then trimStart s' else s
  end.

Definition trimEnd (s : jsstring) : jsstring := rev (trimStart (rev s)).

Definition trim (s : jsstring) : jsstring := trimEnd (trimStart s).

(** Truthiness of a string: [!s] holds exactly for the empty string. *)
Definition isEmpty (s : jsstring) : bool :=
  match s with [] => true | _ :: _ => false end.

Fixpoint startsWith (p s : jsstring) : bool :=
  match p, s with
  | [], _ => true
  | _ :: _, [] => false
  | a :: p', b :: s' => (a =? b)%N && startsWith p' s'
  end.

Definition endsWith (p s : jsstring) : bool := startsWith (rev p) (rev s).

Fixpoint includes (p s : jsstring) : bool :=
  startsWith p s
  || match s with
     | [] => false
     | _ :: s' => includes p s'
     end.

(** [s.split(sep)] for a one-character separator: always at least one
    piece, the pieces contain no separator. *)
Fixpoint split (sep : codeunit) (s : jsstring) : list jsstring :=
  match s with
  | [] => [[]]
  | c :: s' =>
      if (c =? sep)%N then [] :: split sep s'
      else match split sep s' with
           | [] => [[c]]
           | piece :: pieces => (c :: piece) :: pieces
           end
  end.

(** [(s.match(/\$\$/g) || []).length]: the number of matches of the
    two-character marker, scanning left to right, each match consuming
    both characters. *)
Fixpoint countDollarDollar (s : jsstring) : nat :=
  match s with
  | [] => 0
  | a :: t =>
      match t with
      | [] => 0
      | b :: s' =>
          if ((a =? 36) && (b =? 36))%N then S (countDollarDollar s')
          else countDollarDollar t
      end
  end.

(** Template-literal rendering of a non-negative integer. *)
Fixpoint digits (d : Decimal.uint) : jsstring :=
  match d with
  | Decimal.Nil => []
  | Decimal.D0 d => 48%N :: digits d
  | Decimal.D1 d => 49%N :: digits d
  | Decimal.D2 d => 50%N :: digits d
  | Decimal.D3 d => 51%N :: digits d
  | Decimal.D4 d => 52%N :: digits d
  | Decimal.D5 d => 53%N :: digits d
  | Decimal.D6 d => 54%N :: digits d
  | Decimal.D7 d => 55%N :: digits d
  | Decimal.D8 d => 56%N :: digits d
  | Decimal.D9 d => 57%N :: digits d
  end.

Definition numberToString (n : nat) : jsstring := digits (Nat.to_uint n).

Definition LF : codeunit := 10%N.

End Js.

Import Js.

(** ** The statement splitter *)

(** The three variables of the scanning loop of [parseSQLStatements]. *)
Record ScanState := {
  statements : list jsstring;
  current : jsstring;
  inDollarQuote : bool
}.

Definition scanInit : ScanState :=
  {| statements := []; current := []; inDollarQuote := false |}.

(** One iteration of [for (const line of lines)]. *)
Definition scanLine (st : ScanState) (line : jsstring) : ScanState :=
  let trimmed := trim line in
  if negb (inDollarQuote st)
     && (isEmpty trimmed || startsWith (lit "--") trimmed)
  then st
  else
    let inDQ :=
      if includes (lit "$$") trimmed then
        let count := countDollarDollar trimmed in
        if Nat.eqb (count mod 2) 1 then negb (inDollarQuote st)
        else inDollarQuote st
      else inDollarQuote st in
    let cur := current st ++ line ++ [LF] in
    if negb inDQ && endsWith (lit ";") trimmed then
      let stmt := trim cur in
      {| statements :=
           if negb (isEmpty stmt) && negb (startsWith (lit "--") stmt)
           then statements st ++ [stmt]
           else statements st;
         current := [];
         inDollarQuote := inDQ |}
    else
      {| statements := statements st; current := cur; inDollarQuote := inDQ |}.

Definition scanLines (st : ScanState) (lines : list jsstring) : ScanState :=
  fold_left scanLine lines st.

(** The trailing-buffer rule after the loop. *)
Definition scanFinish (st : ScanState) : list jsstring :=
  if negb (isEmpty (trim (current st)))
  then statements st ++ [trim (current st)]
  else statements st.

Definition parseSQLStatements (sql : jsstring) : list jsstring :=
  scanFinish (scanLines scanInit (split LF sql)).

(** ** Auxiliary notions used to state the splitter's properties *)

(** The test [!stmt || stmt.startsWith('--')] on the trim of [s]: the
    guard of the loop of [runMigration] (there on the array element) and
    the line filter of the splitter (there on the line). *)
Definition skipped (s : jsstring) : bool :=
  isEmpty (trim s) || startsWith (lit "--") (trim s).

(** [`current += line + '\n'`] over a run of lines. *)
Definition unlines (ls : list jsstring) : jsstring :=
  List.concat (map (fun l => l ++ [LF]) ls).

(** The dollar-quote flag after a line whose trimmed text is [trimmed]. *)
Definition nextQuote (q : bool) (trimmed : jsstring) : bool :=
  if includes (lit "$$") trimmed then
    if Nat.eqb (countDollarDollar trimmed mod 2) 1 then negb q else q
  else q.

(** The buffer is either empty, outside any dollar quote, or it begins
    with a line that was kept while outside a dollar quote. *)
Definition BufferOk (st : ScanState) : Prop :=
  (current st = [] /\ inDollarQuote st = false)
  \/ exists l r, current st = l ++ LF :: r /\ skipped l = false.

(** What the splitter promises about each statement it returns. *)
Definition IsStatement (s : jsstring) : Prop :=
  s <> [] /\ trim s = s /\ skipped s = false.

(** Some scripts used as concrete instances below. *)
Definition joinLF (ls : list jsstring) : jsstring :=
  match ls with
  | [] => []
  | l :: ls' => l ++ List.concat (map (fun x => LF :: x) ls')
  end.

Definition functionScript : jsstring :=
  joinLF [lit "CREATE FUNCTION f() RETURNS int AS $$";
          lit "BEGIN x := 1;";
          lit "";
          lit "-- not a comment here";
          lit "END;";
          lit "$$ LANGUAGE plpgsql;";
          lit "SELECT 2"].


Definition commentScript : jsstring :=
  joinLF [lit "-- header"; lit "   "; lit "  -- indented note"; lit ""].

(** ** The asynchronous world: remote endpoint, timer, file system *)

(** How an awaited call completes: with a value, or by throwing. *)
Inductive Completion (A : Type) : Type :=
| Normal (a : A)
| Throw (message : jsstring).

Arguments Throw {A} message.

(** What [executeSQL] resolves to: [{success: true, data}] or
    [{success: false, error}].  [data] is kept as the response text. *)
Inductive ExecResult : Type :=
| ExecOk (data : jsstring)
| ExecErr (error : jsstring).

Definition success (r : ExecResult) : bool :=
  match r with ExecOk _ => true | ExecErr _ => false end.

(** Observable actions.  A call of [executeSQL] is recorded together with
    the index [i] of the loop iteration of [runMigration] that awaited it. *)
Inductive Event : Type :=
| EvExecuteSQL (i : nat) (sql : jsstring) (r : Completion ExecResult)
| EvDelay (ms : N).

(** An entry of the file system as [fs.existsSync] and [fs.readFileSync]
    see it. *)
Inductive FileEntry : Type :=
| Absent
| Unreadable (message : jsstring)
| Readable (content : jsstring).

(** [options]: every field may be left undefined. *)
Record Options := {
  delayMs : option N;
  stopOnError : option bool;
  silent : option bool
}.

Definition noOptions : Options :=
  {| delayMs := None; stopOnError := None; silent := None |}.

Definition DEFAULT_DELAY_MS : N := 300.

Definition orDefault {A : Type} (o : option A) (d : A) : A :=
  match o with Some a => a | None => d end.

Record MigrationResult := {
  total : nat;
  successful : nat;
  failed : nat;
  errors : list jsstring
}.

(** The three accumulators of the loop of [runMigration]. *)
Record Tally := {
  t_successful : nat;
  t_failed : nat;
  t_errors : list jsstring
}.

(** [`Statement ${i + 1}: ${result.error}`] *)
Definition errorEntry (i : nat) (error : jsstring) : jsstring :=
  lit "Statement " ++ numberToString (i + 1) ++ lit ": " ++ error.

Section Runner.

(** The remote endpoint behind [executeSQL]: an arbitrary state machine.
    It may answer with success, with failure, or make [executeSQL] throw
    (no access token can be obtained). *)
Variable W : Type.
Variable endpoint : jsstring -> W -> Completion ExecResult * W.

(** [path.isAbsolute], [path.join] with [process.cwd()], and the files. *)
Variable isAbsolute : jsstring -> bool.
Variable joinCwd : jsstring -> jsstring.
Variable files : jsstring -> FileEntry.

Record World := { remote : W; trace : list Event }.

Definition Async (A : Type) : Type := World -> Completion A * World.

Definition ret {A : Type} (a : A) : Async A := fun w => (Normal a, w).

Definition bind {A B : Type} (c : Async A) (k : A -> Async B) : Async B :=
  fun w =>
    match c w with
    | (Normal a, w') => k a w'
    | (Throw m, w') => (Throw m, w')
    end.

Notation "x <- c ;; k" := (bind c (fun x => k))
  (at level 61, c at next level, right associativity).
Notation "c ;;; k" := (bind c (fun _ => k))
  (at level 61, right associativity).

Definition emit (e : Event) (w : World) : World :=
  {| remote := remote w; trace := trace w ++ [e] |}.

(** [await executeSQL(stmt)] in iteration [i]. *)
Definition executeSQL (i : nat) (sql : jsstring) : Async ExecResult :=
  fun w =>
    let (r, s) := endpoint sql (remote w) in
    (r, emit (EvExecuteSQL i sql r) {| remote := s; trace := trace w |}).

(** [await delay(ms)] *)
Definition delay (ms : N) : Async unit :=
  fun w => (Normal tt, emit (EvDelay ms) w).

(** [if (i < statements.length - 1) await delay(delayMs)] *)
Definition pause (len i : nat) (ms : N) : Async unit :=
  if i <? len - 1 then delay ms else ret tt.

(** The [for] loop of [runMigration], from index [i] on; [rest] are the
    elements [statements[i]], [statements[i+1]], ... still to visit and
    [len] is [statements.length]. *)
Fixpoint runLoop (len : nat) (ms : N) (stop : bool)
         (i : nat) (rest : list jsstring) (acc : Tally) : Async Tally :=
  match rest with
  | [] => ret acc
  | s :: rest' =>
      let stmt := trim s in
      if isEmpty stmt || startsWith (lit "--") stmt
      then runLoop len ms stop (S i) rest' acc
      else
        result <- executeSQL i stmt ;;
        match result with
        | ExecOk _ =>
            let acc' := {| t_successful := t_successful acc + 1;
                           t_failed := t_failed acc;
                           t_errors := t_errors acc |} in
            pause len i ms ;;;
            runLoop len ms stop (S i) rest' acc'
        | ExecErr error =>
            let acc' := {| t_successful := t_successful acc;
                           t_failed := t_failed acc + 1;
                           t_errors := t_errors acc ++ [errorEntry i error] |} in
            if stop then ret acc'
            else
              pause len i ms ;;;
              runLoop len ms stop (S i) rest' acc'
        end
  end.

Definition runMigration (stmts : list jsstring) (options : Options)
  : Async MigrationResult :=
  let ms := orDefault (delayMs options) DEFAULT_DELAY_MS in
  let stop := orDefault (stopOnError options) false in
  acc <- runLoop (List.length stmts) ms stop 0 stmts
           {| t_successful := 0; t_failed := 0; t_errors := [] |} ;;
  ret {| total := List.length stmts;
         successful := t_successful acc;
         failed := t_failed acc;
         errors := t_errors acc |}.

Definition existsSync (p : jsstring) : bool :=
  match files p with Absent => false | _ => true end.

Definition readFileSync (p : jsstring) : Async jsstring :=
  fun w =>
    match files p with
    | Readable content => (Normal content, w)
    | Unreadable m => (Throw m, w)
    | Absent => (Throw (lit "ENOENT: no such file or directory"), w)
    end.

Definition resolvePath (p : jsstring) : jsstring :=
  if isAbsolute p then p else joinCwd p.

Definition runMigrationFile (filePath : jsstring) (options : Options)
  : Async MigrationResult :=
  let absolutePath := resolvePath filePath in
  if negb (existsSync absolutePath) then
    ret {| total := 0; successful := 0; failed := 0;
           errors := [lit "File not found"] |}
  else
    sql <- readFileSync absolutePath ;;
    runMigration (parseSQLStatements sql) options.

(** [main] of [run-migration.js] with its [.catch]: the exit status of
    the process ([0] when the script runs to its end). *)
Definition main (args : list jsstring) (w : World) : nat * World :=
  match args with
  | [] => (1, w)
  | arg :: _ =>
      if isEmpty arg then (1, w)
      else
        let migrationPath := resolvePath arg in
        match runMigrationFile migrationPath
                {| delayMs := Some 200%N; stopOnError := Some false;
                   silent := None |} w with
        | (Normal result, w') =>
            if 0 <? failed result then (1, w') else (0, w')
        | (Throw _, w') => (1, w')
        end
  end.

End Runner.

(** ** Auxiliary notions used to state the executor's properties *)

(** The failed calls of a trace, as (loop index, error detail), the
    successful ones and all of them, in the order they were made. *)
Definition failures (evs : list Event) : list (nat * jsstring) :=
  flat_map (fun ev => match ev with
                      | EvExecuteSQL i _ (Normal (ExecErr error)) => [(i, error)]
                      | _ => []
                      end) evs.

Definition successes (evs : list Event) : list nat :=
  flat_map (fun ev => match ev with
                      | EvExecuteSQL i _ (Normal (ExecOk _)) => [i]
                      | _ => []
                      end) evs.

Definition calls (evs : list Event) : list (nat * jsstring) :=
  flat_map (fun ev => match ev with
                      | EvExecuteSQL i sql _ => [(i, sql)]
                      | EvDelay _ => []
                      end) evs.

(** [CallsOn i rest cs]: the calls [cs] were made, in order and at most
    one per element, on elements of [rest] (the array from index [i] on)
    that the guard does not skip; each call carries the index of its
    element and its trimmed text. *)
Inductive CallsOn : nat -> list jsstring -> list (nat * jsstring) -> Prop :=
| CallsOn_done i rest : CallsOn i rest []
| CallsOn_pass i s rest cs :
    CallsOn (S i) rest cs -> CallsOn i (s :: rest) cs
| CallsOn_call i s rest cs :
    skipped s = false ->
    CallsOn (S i) rest cs -> CallsOn i (s :: rest) ((i, trim s) :: cs).

(** The world after a call of the endpoint, and after the pause that
    follows iteration [i]. *)
Definition afterCall {W : Type} (i : nat) (sql : jsstring)
           (r : Completion ExecResult) (x : W) (w : World W) : World W :=
  {| remote := x; trace := trace w ++ [EvExecuteSQL i sql r] |}.

Definition afterPause {W : Type} (len i : nat) (ms : N) (w : World W)
  : World W :=
  {| remote := remote w;
     trace := trace w ++ (if i <? len - 1 then [EvDelay ms] else []) |}.

(** A mocked endpoint whose state counts the calls received: the second
    call fails, every other call succeeds. *)
Definition failSecond (sql : jsstring) (n : nat)
  : Completion ExecResult * nat :=
  (if Nat.eqb n 1 then Normal (ExecErr (lit "syntax error"))
   else Normal (ExecOk (lit "[]")), S n).

(** A mocked endpoint that always succeeds. *)
Definition alwaysOk (sql : jsstring) (n : nat) : Completion ExecResult * nat :=
  (Normal (ExecOk (lit "[]")), S n).

Definition freshWorld : World nat := {| remote := 0; trace := [] |}.

(** A POSIX environment with working directory [/repo]. *)
Definition posixIsAbsolute (p : jsstring) : bool := startsWith (lit "/") p.

Definition joinRepo (p : jsstring) : jsstring := lit "/repo/" ++ p.

Definition noFiles (p : jsstring) : FileEntry := Absent.

(** One unreadable entry (a directory) and one migration file. *)
Definition someFiles (p : jsstring) : FileEntry :=
  if list_eq_dec N.eq_dec p (lit "/repo/migrations") then
    Unreadable (lit "EISDIR: illegal operation on a directory, read")
  else if list_eq_dec N.eq_dec p (lit "/repo/migrations/001.sql") then
    Readable functionScript
  else Absent.

(** A mocked endpoint that fails on one particular statement text and
    succeeds on every other. *)
Definition failOn (bad : jsstring) (sql : jsstring) (n : nat)
  : Completion ExecResult * nat :=
  (if list_eq_dec N.eq_dec sql bad then Normal (ExecErr (lit "syntax error"))
   else Normal (ExecOk (lit "[]")), S n).

(** An array whose first element is a comment line. *)
Definition commentFirst : list jsstring :=
  [lit "-- create the tables"; lit "DROP TABLE a;";
   lit "CREATE TABLE b (id int);"; lit "CREATE TABLE c (id int);"].

Definition stopping : Options :=
  {| delayMs := None; stopOnError := Some true; silent := None |}.

(** The result [runMigrationFile] returns when the file does not exist. *)
Definition fileNotFound : MigrationResult :=
  {| total := 0; successful := 0; failed := 0;
     errors := [lit "File not found"] |}.

Definition fourStatements : list jsstring :=
  [lit "CREATE TABLE a (id int);"; lit "CREATE TABLE a (id int);";
   lit "CREATE TABLE b (id int);"; lit "CREATE TABLE c (id int);"].

(** ** Further notions: kept lines, submitted statements, pacing *)

(** The lines the scanning loop appends to its buffer, in order, when it
    starts with the dollar-quote flag [q]: all but the blank and comment
    lines met outside a dollar quote. *)
Fixpoint keptFrom (q : bool) (lines : list jsstring) : list jsstring :=
  match lines with
  | [] => []
  | l :: ls =>
      if negb q && skipped l then keptFrom q ls
      else l :: keptFrom (nextQuote q (trim l)) ls
  end.

(** The elements of the array from index [i] on that the guard of
    [runMigration] lets through, each with its index and the text that is
    passed to [executeSQL]. *)
Fixpoint submittedFrom (i : nat) (rest : list jsstring)
  : list (nat * jsstring) :=
  match rest with
  | [] => []
  | s :: rest' =>
      if skipped s then submittedFrom (S i) rest'
      else (i, trim s) :: submittedFrom (S i) rest'
  end.

(** The statements that come out of a buffer [cur] and the chunks of kept
    lines still to come. *)
Definition emitted (cur : jsstring) (chunks : list (list jsstring))
  : list jsstring :=
  match chunks with
  | [] => if isEmpty (trim cur) then [] else [trim cur]
  | ch :: rest =>
      trim (cur ++ unlines ch) :: map (fun c => trim (unlines c)) rest
  end.

(** Statements already pushed do not influence the rest of the scan. *)
Definition withStatements (pre : list jsstring) (st : ScanState) : ScanState :=
  {| statements := pre ++ statements st;
     current := current st;
     inDollarQuote := inDollarQuote st |}.

(** A trace in which any two consecutive calls are separated by exactly
    one delay of [ms] milliseconds, and nothing else happens. *)
Inductive Paced (ms : N) : list Event -> Prop :=
| Paced_nil : Paced ms []
| Paced_last i sql r : Paced ms [EvExecuteSQL i sql r]
| Paced_cons i sql r evs :
    Paced ms evs -> Paced ms (EvExecuteSQL i sql r :: EvDelay ms :: evs).

(** Calls that threw. *)
Definition thrown (evs : list Event) : list (nat * jsstring) :=
  flat_map (fun ev => match ev with
                      | EvExecuteSQL i _ (Throw m) => [(i, m)]
                      | _ => []
                      end) evs.

(** ** The access token and the request behind [executeSQL] *)

(** [s.replace(pat, rep)] for a string pattern: the first occurrence. *)
Fixpoint replaceFirst (pat rep s : jsstring) : jsstring :=
  if startsWith pat s then rep ++ skipn (List.length pat) s
  else match s with
       | [] => []
       | c :: s' => c :: replaceFirst pat rep s'
       end.

(** What [getAccessToken] reads: the environment variable
    [SUPABASE_ACCESS_TOKEN] (possibly unset) and the outcome of the
    keychain command run by [execSync], which throws when the command
    fails. *)
Record TokenSource := {
  envToken : option jsstring;
  keychain : Completion jsstring
}.

(** Truthiness of a value that is [null], [undefined] or a string. *)
Definition truthy (v : option jsstring) : bool :=
  match v with
  | Some (_ :: _) => true
  | _ => false
  end.

Definition keyringPrefix : jsstring := lit "go-keyring-base64:".

Definition tokenError : jsstring :=
  lit "Could not get Supabase access token. Either:" ++ [LF]
  ++ lit "  1. Run " ++ [34%N] ++ lit "supabase login" ++ [34%N]
  ++ lit " to authenticate" ++ [LF]
  ++ lit "  2. Set SUPABASE_ACCESS_TOKEN environment variable".

Section Token.

(** [Buffer.from(s, 'base64').toString('utf-8')] *)
Variable decodeBase64 : jsstring -> jsstring.

(** [getAccessToken], on the module variable [cachedAccessToken]
    ([None] is [null]). *)
Definition getAccessToken (src : TokenSource) (cached : option jsstring)
  : Completion jsstring * option jsstring :=
  if truthy cached then (Normal (orDefault cached []), cached)
  else if truthy (envToken src) then
    (Normal (orDefault (envToken src) []), envToken src)
  else
    match keychain src with
    | Normal out =>
        let rawToken := trim out in
        let token :=
          if startsWith keyringPrefix rawToken
          then decodeBase64 (replaceFirst keyringPrefix [] rawToken)
          else rawToken in
        (Normal token, Some token)
    | Throw _ => (Throw tokenError, cached)
    end.

Definition clearTokenCache (cached : option jsstring) : option jsstring :=
  None.

(** What [await fetch(...)] followed by [await response.text()] gives:
    the request throws, or a response arrives whose [ok] flag is known and
    whose body is read (reading may throw as well). *)
Inductive FetchOutcome : Type :=
| FetchThrows (message : jsstring)
| Response (ok : bool) (text : Completion jsstring).

(** The network: answers a request, made of the bearer token and the
    query, from its own state. *)
Variable F : Type.
Variable fetch : jsstring -> jsstring -> F -> FetchOutcome * F.

(** [executeSQL] itself, on the token cache and the network.  A body that
    does not parse as JSON is kept as text, so success always carries the
    body. *)
Definition executeSQLRequest (src : TokenSource) (sql : jsstring)
           (st : option jsstring * F)
  : Completion ExecResult * (option jsstring * F) :=
  match getAccessToken src (fst st) with
  | (Throw m, cached) => (Throw m, (cached, snd st))
  | (Normal token, cached) =>
      match fetch token sql (snd st) with
      | (Response true (Normal text), f) => (Normal (ExecOk text), (cached, f))
      | (Response false (Normal text), f) => (Normal (ExecErr text), (cached, f))
      | (Response _ (Throw m), f) => (Normal (ExecErr m), (cached, f))
      | (FetchThrows m, f) => (Normal (ExecErr m), (cached, f))
      end
  end.

(** The cache holds a usable token. *)
Definition tokenReady (token : jsstring) (st : option jsstring * F) : Prop :=
  fst st = Some token /\ token <> [].

End Token.

(** A base64 decoder known on one payload, to instantiate statements. *)
Definition decodeSample (s : jsstring) : jsstring :=
  if list_eq_dec N.eq_dec s (lit "c2JwX2tleQ==") then lit "sbp_key" else [].

(** A network that is down, counting the requests it gets. *)
Definition offline (token sql : jsstring) (n : nat) : FetchOutcome * nat :=
  (FetchThrows (lit "fetch failed"), S n).

Definition noCredentials : TokenSource :=
  {| envToken := None; keychain := Throw (lit "exit status 44") |}.

(** The label [executeSQL] prints for a statement:
    [label || sql.slice(0, 50).replace(/\n/g, ' ') + (sql.length > 50 ? '...' : '')]. *)
Definition displayLabel (sql label : jsstring) : jsstring :=
  if isEmpty label then
    map (fun c => if (c =? LF)%N then 32%N else c) (firstn 50 sql)
    ++ (if 50 <? List.length sql then lit "..." else [])
  else label.

(** ** The dashboard page *)

(** The three badges [DomainStatusBadge] can render. *)
Inductive Badge : Type := Expired | ExpiringSoon | Active.

Section Dashboard.

(** A domain of the page and the value of
    [differenceInDays(domain.expiresAt, new Date())] for it at the time
    of rendering. *)
Variable Domain : Type.
Variable autoRenew : Domain -> bool.
Variable daysUntilExpiry : Domain -> Z.

Definition domainStatusBadge (d : Domain) : Badge :=
  if (daysUntilExpiry d <? 0)%Z then Expired
  else if (daysUntilExpiry d <? 30)%Z then ExpiringSoon
  else Active.

(** [domains.filter(d => differenceInDays(...) < 30).length] *)
Definition expiringCount (domains : list Domain) : nat :=
  List.length (filter (fun d => (daysUntilExpiry d <? 30)%Z) domains).

(** [domains.filter(d => !d.autoRenew).length] *)
Definition autoRenewOffCount (domains : list Domain) : nat :=
  List.length (filter (fun d => negb (autoRenew d)) domains).

End Dashboard.

(** * Properties *)

(** ** Facts about [trim] and friends *)

Module JsFacts.

Lemma trimStart_app_nonblank (a b : jsstring) :
  trimStart a <> [] -> trimStart (a ++ b) = trimStart a ++ b.
Proof.
  induction a as [|c a IH]; simpl; intros H.
  - congruence.
  - destruct (isWhiteSpace c); auto.
Qed.

Lemma trimStart_app_blank (a b : jsstring) :
  trimStart a = [] -> trimStart (a ++ b) = trimStart b.
Proof.
  induction a as [|c a IH]; simpl; intros H; auto.
  destruct (isWhiteSpace c); [auto | discriminate].
Qed.

Lemma trimStart_head (s : jsstring) c t :
  trimStart s = c :: t -> isWhiteSpace c = false.
Proof.
  induction s as [|d s IH]; simpl; [discriminate|].
  destruct (isWhiteSpace d) eqn:E; auto.
  intros H; injection H as -> _; exact E.
Qed.

Lemma trimStart_idem (s : jsstring) : trimStart (trimStart s) = trimStart s.
Proof.
  induction s as [|c s IH]; simpl; auto.
  destruct (isWhiteSpace c) eqn:E; auto.
  simpl; now rewrite E.
Qed.

(** [trimEnd] seen from the front of the string. *)
Lemma trimEnd_cons (c : codeunit) (s : jsstring) :
  trimEnd (c :: s) =
  if isEmpty (trimEnd s)
  then (if isWhiteSpace c then [] else [c])
  else c :: trimEnd s.
Proof.
  unfold trimEnd; simpl.
  destruct (trimStart (rev s)) as [|d t] eqn:E.
  - rewrite trimStart_app_blank by exact E. simpl.
    destruct (isWhiteSpace c); reflexivity.
  - rewrite trimStart_app_nonblank by congruence.
    rewrite E, rev_app_distr. simpl.
    destruct (rev t ++ [d]) eqn:E'; [|reflexivity].
    destruct (rev t); discriminate.
Qed.

Lemma trimEnd_nil : trimEnd [] = [].
Proof. reflexivity. Qed.

Lemma trimEnd_app_nonblank (a b : jsstring) :
  trimEnd b <> [] -> trimEnd (a ++ b) = a ++ trimEnd b.
Proof.
  intros H. induction a as [|c a IH]; simpl; auto.
  rewrite trimEnd_cons, IH.
  destruct (a ++ trimEnd b) eqn:E; [|reflexivity].
  destruct a; simpl in E; congruence.
Qed.

Lemma trimEnd_idem (s : jsstring) : trimEnd (trimEnd s) = trimEnd s.
Proof.
  unfold trimEnd. now rewrite rev_involutive, trimStart_idem.
Qed.

Lemma trimEnd_nonws_head (c : codeunit) (s : jsstring) :
  isWhiteSpace c = false -> trimEnd (c :: s) = c :: trimEnd s.
Proof.
  intros H. rewrite trimEnd_cons, H.
  destruct (trimEnd s); reflexivity.
Qed.

(** The first character of [trimEnd s], when there is one, is the first
    character of [s]. *)
Lemma trimEnd_head_cases (c : codeunit) (s : jsstring) :
  trimEnd (c :: s) = [] \/ exists t, trimEnd (c :: s) = c :: t.
Proof.
  rewrite trimEnd_cons.
  destruct (isEmpty (trimEnd s)); [destruct (isWhiteSpace c)|]; eauto.
Qed.

Lemma trim_cons (s : jsstring) c t :
  trimStart s = c :: t -> trim s = c :: trimEnd t.
Proof.
  intros H. unfold trim. rewrite H.
  apply trimEnd_nonws_head. eapply trimStart_head; eauto.
Qed.

Lemma trim_blank (s : jsstring) : trimStart s = [] -> trim s = [].
Proof. intros H. unfold trim. now rewrite H. Qed.

Lemma trim_nil_iff (s : jsstring) : trim s = [] <-> trimStart s = [].
Proof.
  split; [|apply trim_blank].
  destruct (trimStart s) as [|c t] eqn:E; auto.
  rewrite (trim_cons _ E). discriminate.
Qed.

Lemma trim_idem (s : jsstring) : trim (trim s) = trim s.
Proof.
  destruct (trimStart s) as [|c t] eqn:E.
  - now rewrite (trim_blank _ E).
  - rewrite (trim_cons _ E).
    assert (Hc : isWhiteSpace c = false) by (eapply trimStart_head; eauto).
    unfold trim. simpl. rewrite Hc.
    rewrite trimEnd_nonws_head by exact Hc.
    now rewrite trimEnd_idem.
Qed.


(** The comment test of the source looks at [trim]; only leading
    whitespace matters for it. *)
Lemma startsWith_dashes_cons (c : codeunit) (s : jsstring) :
  startsWith (lit "--") (c :: s) =
  ((45 =? c)%N && match s with [] => false | d :: _ => (45 =? d)%N end).
Proof.
  destruct s as [|d s]; cbn -[N.eqb]; [reflexivity|].
  now rewrite andb_true_r.
Qed.

Lemma startsWith_dashes_trim (s : jsstring) :
  startsWith (lit "--") (trim s) = startsWith (lit "--") (trimStart s).
Proof.
  destruct (trimStart s) as [|c t] eqn:E.
  - now rewrite (trim_blank _ E).
  - rewrite (trim_cons _ E), !startsWith_dashes_cons.
    f_equal.
    destruct t as [|d t]; [reflexivity|].
    destruct (45 =? d)%N eqn:Ed.
    + apply N.eqb_eq in Ed; subst d.
      now rewrite trimEnd_nonws_head by reflexivity.
    + destruct (trimEnd_head_cases d t) as [-> | [u ->]];
        [reflexivity | exact Ed].
Qed.


End JsFacts.

Import JsFacts.

(** ** The splitter: invariants of the scanning loop *)

Lemma skipped_false (s : jsstring) :
  skipped s = false <->
  trimStart s <> [] /\ startsWith (lit "--") (trimStart s) = false.
Proof.
  unfold skipped. rewrite startsWith_dashes_trim, orb_false_iff.
  split; intros [H1 H2]; split; auto.
  - intros E. now rewrite (trim_blank _ E) in H1.
  - destruct (trim s) eqn:E; [|reflexivity].
    apply trim_nil_iff in E. contradiction.
Qed.

Lemma skipped_trim (s : jsstring) : skipped (trim s) = skipped s.
Proof. unfold skipped. now rewrite trim_idem. Qed.

(** A buffer that starts with a kept line stays a statement whatever is
    appended after the line's newline. *)
Lemma skipped_app_LF (l r : jsstring) :
  skipped l = false -> skipped (l ++ LF :: r) = false.
Proof.
  rewrite !skipped_false. intros [Hne Hd].
  rewrite trimStart_app_nonblank by exact Hne.
  destruct (trimStart l) as [|c t] eqn:E; [congruence|].
  split; [discriminate|].
  change ((c :: t) ++ LF :: r) with (c :: (t ++ LF :: r)).
  rewrite startsWith_dashes_cons in *.
  destruct t as [|d t]; simpl app.
  - change (45 =? LF)%N with false. apply andb_false_r.
  - exact Hd.
Qed.

Lemma BufferOk_init : BufferOk scanInit.
Proof. left; split; reflexivity. Qed.

Lemma BufferOk_nonempty (st : ScanState) :
  BufferOk st -> current st <> [] -> skipped (current st) = false.
Proof.
  intros [[E _] | (l & r & E & Hl)] Hne; [contradiction|].
  rewrite E. now apply skipped_app_LF.
Qed.

Lemma BufferOk_quote (st : ScanState) :
  BufferOk st -> inDollarQuote st = true -> current st <> [].
Proof.
  intros [[_ E] | (l & r & E & _)] Hq; [congruence|].
  rewrite E. destruct l; discriminate.
Qed.

(** The two ways an iteration can go. *)
Lemma scanLine_skip (st : ScanState) (line : jsstring) :
  inDollarQuote st = false -> skipped line = true -> scanLine st line = st.
Proof.
  intros Hq Hs. unfold scanLine. fold (skipped line). now rewrite Hq, Hs.
Qed.

Lemma scanLine_keep (st : ScanState) (line : jsstring) :
  inDollarQuote st = true \/ skipped line = false ->
  scanLine st line =
  let inDQ := nextQuote (inDollarQuote st) (trim line) in
  let cur := current st ++ line ++ [LF] in
  if negb inDQ && endsWith (lit ";") (trim line) then
    {| statements :=
         if negb (isEmpty (trim cur)) && negb (startsWith (lit "--") (trim cur))
         then statements st ++ [trim cur] else statements st;
       current := [];
       inDollarQuote := inDQ |}
  else {| statements := statements st; current := cur; inDollarQuote := inDQ |}.
Proof.
  intros H. unfold scanLine. fold (skipped line).
  destruct H as [-> | ->]; [|rewrite andb_false_r]; reflexivity.
Qed.

Lemma kept_buffer_ok (st : ScanState) (line : jsstring) :
  BufferOk st ->
  inDollarQuote st = true \/ skipped line = false ->
  exists l r, current st ++ line ++ [LF] = l ++ LF :: r /\ skipped l = false.
Proof.
  intros [[E Hq] | (l & r & E & Hl)] H.
  - destruct H as [H | H]; [congruence|].
    exists line, []. rewrite E. auto.
  - exists l, (r ++ line ++ [LF]). rewrite E, <- app_assoc. auto.
Qed.

Lemma scanLine_BufferOk (st : ScanState) (line : jsstring) :
  BufferOk st -> BufferOk (scanLine st line).
Proof.
  intros Hok.
  destruct (inDollarQuote st) eqn:Hq.
  2: destruct (skipped line) eqn:Hs.
  2: { now rewrite scanLine_skip. }
  all: rewrite scanLine_keep by auto; cbv zeta.
  all: destruct (kept_buffer_ok line Hok) as (l & r & E & Hl);
    [rewrite Hq; auto|].
  all: destruct (negb _ && endsWith _ _) eqn:Hend;
    [|right; exists l, r; simpl; auto].
  all: left; simpl; split; [reflexivity|].
  all: apply andb_prop in Hend; destruct Hend as [Hend _].
  all: now apply negb_true_iff in Hend.
Qed.

Lemma scanLines_BufferOk (lines : list jsstring) (st : ScanState) :
  BufferOk st -> BufferOk (scanLines st lines).
Proof.
  revert st. induction lines as [|l ls IH]; simpl; intros st H; auto.
  apply IH, scanLine_BufferOk, H.
Qed.

(** A kept line that ends a statement really pushes it: the guard on the
    trimmed buffer never fires in a reachable state. *)
Lemma buffer_guard (st : ScanState) (line : jsstring) :
  BufferOk st ->
  inDollarQuote st = true \/ skipped line = false ->
  negb (isEmpty (trim (current st ++ line ++ [LF])))
  && negb (startsWith (lit "--") (trim (current st ++ line ++ [LF]))) = true.
Proof.
  intros Hok H.
  destruct (kept_buffer_ok line Hok H) as (l & r & E & Hl).
  rewrite E. pose proof (skipped_app_LF l r Hl) as Hs.
  unfold skipped in Hs. apply orb_false_iff in Hs. destruct Hs as [-> ->].
  reflexivity.
Qed.

Lemma trim_IsStatement (s : jsstring) :
  skipped s = false -> IsStatement (trim s).
Proof.
  intros H. split; [|split].
  - unfold skipped in H. apply orb_false_iff in H.
    destruct (trim s); [destruct H; discriminate | discriminate].
  - apply trim_idem.
  - now rewrite skipped_trim.
Qed.

Lemma scanLine_statements (st : ScanState) (line : jsstring) :
  BufferOk st ->
  Forall IsStatement (statements st) ->
  Forall IsStatement (statements (scanLine st line)).
Proof.
  intros Hok Hall.
  destruct (inDollarQuote st) eqn:Hq.
  2: destruct (skipped line) eqn:Hs.
  2: { now rewrite scanLine_skip. }
  all: rewrite scanLine_keep by auto; cbv zeta.
  all: rewrite buffer_guard by (rewrite ?Hq; auto).
  all: destruct (negb _ && endsWith _ _); simpl; auto.
  all: apply Forall_app; split; auto.
  all: constructor; [|constructor].
  all: apply trim_IsStatement.
  all: destruct (kept_buffer_ok line Hok) as (l & r & E & Hl);
    [rewrite ?Hq; auto|].
  all: rewrite E; now apply skipped_app_LF.
Qed.

Lemma scanLines_statements (lines : list jsstring) (st : ScanState) :
  BufferOk st ->
  Forall IsStatement (statements st) ->
  Forall IsStatement (statements (scanLines st lines)).
Proof.
  revert st. induction lines as [|l ls IH]; simpl; intros st Hok H; auto.
  apply IH; [apply scanLine_BufferOk | apply scanLine_statements]; auto.
Qed.

Lemma scanFinish_statements (st : ScanState) :
  BufferOk st ->
  Forall IsStatement (statements st) ->
  Forall IsStatement (scanFinish st).
Proof.
  intros Hok Hall. unfold scanFinish.
  destruct (isEmpty (trim (current st))) eqn:E; simpl; auto.
  apply Forall_app; split; auto.
  constructor; [|constructor].
  apply trim_IsStatement, BufferOk_nonempty; auto.
  intros Hc. now rewrite Hc in E.
Qed.

Lemma parseSQLStatements_IsStatement (sql : jsstring) :
  Forall IsStatement (parseSQLStatements sql).
Proof.
  unfold parseSQLStatements.
  apply scanFinish_statements.
  - apply scanLines_BufferOk, BufferOk_init.
  - apply scanLines_statements; [apply BufferOk_init | constructor].
Qed.

(** ** The splitter: runs of lines *)

Lemma scanLines_app (st : ScanState) (a b : list jsstring) :
  scanLines st (a ++ b) = scanLines (scanLines st a) b.
Proof. apply fold_left_app. Qed.

(** Outside a dollar quote, blank lines and comment lines leave the three
    loop variables untouched. *)
Lemma scanLines_all_skipped (lines : list jsstring) (st : ScanState) :
  inDollarQuote st = false ->
  Forall (fun l => skipped l = true) lines ->
  scanLines st lines = st.
Proof.
  intros Hq H. induction H as [|l ls Hl _ IH]; simpl; [reflexivity|].
  now rewrite scanLine_skip.
Qed.

Lemma nextQuote_even (q : bool) (trimmed : jsstring) :
  countDollarDollar trimmed mod 2 = 0 -> nextQuote q trimmed = q.
Proof.
  intros H. unfold nextQuote. rewrite H.
  destruct (includes _ _); reflexivity.
Qed.





Section Emitted.

Variable post : list jsstring.
Hypothesis buffer_emitted_post :
  forall st, BufferOk st -> current st <> [] ->
  exists rest, In (trim (current st ++ rest)) (scanFinish (scanLines st post)).


End Emitted.



(** Blank strings are the ones [trimStart] (or [trimEnd]) empties. *)
Lemma trimStart_nil_iff (s : jsstring) :
  trimStart s = [] <-> forallb isWhiteSpace s = true.
Proof.
  induction s as [|c s IH]; simpl; [tauto|].
  destruct (isWhiteSpace c); simpl; [exact IH|].
  split; discriminate.
Qed.

Lemma trimEnd_nil_iff (s : jsstring) :
  trimEnd s = [] <-> forallb isWhiteSpace s = true.
Proof.
  unfold trimEnd. split.
  - intros H. apply (f_equal (@rev _)) in H.
    rewrite rev_involutive in H. simpl in H.
    apply trimStart_nil_iff in H.
    apply forallb_forall. intros x Hx.
    rewrite forallb_forall in H. apply H. now apply in_rev in Hx.
  - intros H.
    assert (E : trimStart (rev s) = []).
    { apply trimStart_nil_iff, forallb_forall. intros x Hx.
      rewrite forallb_forall in H. apply H. now apply in_rev. }
    now rewrite E.
Qed.


(** ** The splitter: the stated properties *)

(** C10.  Every statement returned by [parseSQLStatements], for every
    input, is non-empty and equals its own [trim]. *)
Theorem parseSQLStatements_trimmed (sql : jsstring) :
  Forall (fun s => s <> [] /\ trim s = s) (parseSQLStatements sql).
Proof.
  eapply Forall_impl; [|apply parseSQLStatements_IsStatement].
  intros s (Hne & Ht & _). auto.
Qed.

(** C8.  An input that is empty, or all of whose lines are blank or begin
    (after leading whitespace) with [--], yields no statement at all. *)
Theorem comments_and_blanks_yield_nothing (sql : jsstring) :
  Forall (fun l => trim l = [] \/ startsWith (lit "--") (trimStart l) = true)
         (split LF sql) ->
  parseSQLStatements sql = [].
Proof.
  intros H. unfold parseSQLStatements.
  rewrite scanLines_all_skipped; [reflexivity | reflexivity |].
  eapply Forall_impl; [|exact H].
  intros l [Hb | Hc]; unfold skipped.
  - now rewrite Hb.
  - rewrite startsWith_dashes_trim, Hc. apply orb_true_r.
Qed.

Lemma comments_and_blanks_witness :
  parseSQLStatements [] = [] /\ parseSQLStatements commentScript = [].
Proof.
  split; apply comments_and_blanks_yield_nothing.
  - repeat constructor.
  - repeat (constructor; [first [left; reflexivity | right; reflexivity]|]).
    constructor.
Defined.

(** C9.  When the scan ends with a non-empty buffer (the final statement
    has no terminating semicolon), that buffer, trimmed, is a non-empty
    statement and is the last element of the result. *)
Theorem trailing_buffer_is_last_statement (sql : jsstring) :
  let st := scanLines scanInit (split LF sql) in
  current st <> [] ->
  trim (current st) <> []
  /\ parseSQLStatements sql = statements st ++ [trim (current st)]
  /\ last (parseSQLStatements sql) [] = trim (current st).
Proof.
  intros st Hne.
  assert (Hok : BufferOk st) by apply scanLines_BufferOk, BufferOk_init.
  pose proof (BufferOk_nonempty Hok Hne) as Hs.
  unfold skipped in Hs. apply orb_false_iff in Hs. destruct Hs as [He _].
  assert (Hp : parseSQLStatements sql = statements st ++ [trim (current st)]).
  { unfold parseSQLStatements, scanFinish. fold st. now rewrite He. }
  split; [|split; [exact Hp|]].
  - intros E. now rewrite E in He.
  - rewrite Hp. apply last_last.
Qed.

Lemma trailing_buffer_witness :
  last (parseSQLStatements functionScript) [] = lit "SELECT 2".
Proof.
  refine (proj2 (proj2 (trailing_buffer_is_last_statement functionScript _))).
  discriminate.
Defined.

(** The same in terms of the script's lines: a kept line without a final
    semicolon, followed only by blank and comment lines, closes the
    result together with what was buffered before it. *)
Lemma final_line_without_semicolon (sql : jsstring) pre l post :
  split LF sql = pre ++ l :: post ->
  inDollarQuote (scanLines scanInit pre) = false ->
  skipped l = false ->
  countDollarDollar (trim l) mod 2 = 0 ->
  endsWith (lit ";") (trim l) = false ->
  Forall (fun x => skipped x = true) post ->
  parseSQLStatements sql =
  statements (scanLines scanInit pre)
  ++ [trim (current (scanLines scanInit pre) ++ l ++ [LF])].
Proof.
  intros Hsplit Hq Hl Hev Hend Hpost.
  unfold parseSQLStatements. rewrite Hsplit, scanLines_app. simpl.
  set (st := scanLines scanInit pre) in *.
  assert (Hok : BufferOk st) by apply scanLines_BufferOk, BufferOk_init.
  pose proof (buffer_guard l Hok (or_intror Hl)) as Hg.
  rewrite scanLine_keep by auto. cbv zeta.
  rewrite nextQuote_even, Hend, andb_false_r by exact Hev.
  rewrite scanLines_all_skipped by assumption.
  unfold scanFinish. simpl.
  apply andb_prop in Hg. destruct Hg as [-> _]. reflexivity.
Qed.




(** ** Traces *)

Lemma failures_app (a b : list Event) :
  failures (a ++ b) = failures a ++ failures b.
Proof. apply flat_map_app. Qed.

Lemma successes_app (a b : list Event) :
  successes (a ++ b) = successes a ++ successes b.
Proof. apply flat_map_app. Qed.

Lemma calls_app (a b : list Event) : calls (a ++ b) = calls a ++ calls b.
Proof. apply flat_map_app. Qed.

Lemma CallsOn_length i rest cs :
  CallsOn i rest cs -> List.length cs <= List.length rest.
Proof. induction 1; simpl; lia. Qed.

Lemma parseSQLStatements_unskipped (sql : jsstring) :
  Forall (fun s => skipped s = false) (parseSQLStatements sql).
Proof.
  eapply Forall_impl; [|apply parseSQLStatements_IsStatement].
  intros s (_ & _ & H). exact H.
Qed.

(** Calls recorded by [CallsOn] sit at their own index of the array. *)
Lemma CallsOn_In i rest cs :
  CallsOn i rest cs ->
  forall j sql, In (j, sql) cs ->
  i <= j /\ exists s, nth_error rest (j - i) = Some s
                     /\ sql = trim s /\ skipped s = false.
Proof.
  induction 1 as [i rest | i s rest cs _ IH | i s rest cs Hs _ IH];
    intros j sql Hin.
  - destruct Hin.
  - destruct (IH _ _ Hin) as (Hle & s' & Hn & Ht & Hk).
    split; [lia|]. exists s'. repeat split; auto.
    replace (j - i) with (S (j - S i)) by lia. exact Hn.
  - destruct Hin as [Heq | Hin].
    + injection Heq as <- <-. split; [lia|]. exists s.
      rewrite Nat.sub_diag. auto.
    + destruct (IH _ _ Hin) as (Hle & s' & Hn & Ht & Hk).
      split; [lia|]. exists s'. repeat split; auto.
      replace (j - i) with (S (j - S i)) by lia. exact Hn.
Qed.

Lemma failures_In (evs : list Event) j e :
  In (j, e) (failures evs) ->
  exists sql, In (EvExecuteSQL j sql (Normal (ExecErr e))) evs.
Proof.
  unfold failures. rewrite in_flat_map. intros (ev & Hev & Hin).
  destruct ev as [i sql [[d|e']|m]|ms]; simpl in Hin; try tauto.
  destruct Hin as [Heq|[]]. injection Heq as -> ->. eauto.
Qed.

Lemma calls_In (evs : list Event) j sql r :
  In (EvExecuteSQL j sql r) evs -> In (j, sql) (calls evs).
Proof.
  intros H. unfold calls. rewrite in_flat_map.
  eexists; split; [exact H|]. simpl. auto.
Qed.

(** ** The executor: one iteration of the loop *)

Section RunnerFacts.

Variable W : Type.
Variable endpoint : jsstring -> W -> Completion ExecResult * W.
Variable isAbsolute : jsstring -> bool.
Variable joinCwd : jsstring -> jsstring.
Variable files : jsstring -> FileEntry.

Lemma pause_run (len i : nat) (ms : N) (w : World W) :
  pause len i ms w = (Normal tt, afterPause len i ms w).
Proof.
  unfold pause, afterPause. destruct (i <? len - 1).
  - reflexivity.
  - destruct w. unfold ret. simpl. now rewrite app_nil_r.
Qed.

(** The body of the [for] loop, case by case on the guard and on what the
    endpoint answers. *)
Lemma runLoop_cons len ms stop i s rest acc (w : World W) :
  runLoop endpoint len ms stop i (s :: rest) acc w =
  if skipped s then runLoop endpoint len ms stop (S i) rest acc w
  else
    let (r, x) := endpoint (trim s) (remote w) in
    let w1 := afterCall i (trim s) r x w in
    match r with
    | Normal (ExecOk _) =>
        runLoop endpoint len ms stop (S i) rest
          {| t_successful := t_successful acc + 1;
             t_failed := t_failed acc;
             t_errors := t_errors acc |}
          (afterPause len i ms w1)
    | Normal (ExecErr error) =>
        let acc' := {| t_successful := t_successful acc;
                       t_failed := t_failed acc + 1;
                       t_errors := t_errors acc ++ [errorEntry i error] |} in
        if stop then (Normal acc', w1)
        else runLoop endpoint len ms stop (S i) rest acc'
               (afterPause len i ms w1)
    | Throw m => (Throw m, w1)
    end.
Proof.
  cbn [runLoop].
  change (isEmpty (trim s) || startsWith (lit "--") (trim s)) with (skipped s).
  destruct (skipped s); [reflexivity|].
  unfold bind at 1. unfold executeSQL.
  destruct (endpoint (trim s) (remote w)) as [[[d|e]|m] x]; cbv zeta;
    unfold emit; simpl remote; simpl trace;
    match goal with
    | |- context [Build_World ?y (trace w ++ [EvExecuteSQL i (trim s) ?r])] =>
        change (Build_World y (trace w ++ [EvExecuteSQL i (trim s) r]))
          with (afterCall i (trim s) r y w)
    end;
    try reflexivity.
  - unfold bind. now rewrite pause_run.
  - destruct stop; [reflexivity|]. unfold bind. now rewrite pause_run.
Qed.

(** ** The executor: what a completed loop has done *)

(** Every answer of the endpoint is counted once, every failure leaves one
    entry, and the calls follow the array. *)
Lemma runLoop_trace len ms stop rest :
  forall i acc (w : World W) acc' w',
  runLoop endpoint len ms stop i rest acc w = (Normal acc', w') ->
  exists evs,
    trace w' = trace w ++ evs
    /\ t_successful acc' = t_successful acc + List.length (successes evs)
    /\ t_failed acc' = t_failed acc + List.length (failures evs)
    /\ t_errors acc' =
       t_errors acc ++ map (fun f => errorEntry (fst f) (snd f)) (failures evs)
    /\ CallsOn i rest (calls evs).
Proof.
  induction rest as [|s rest IH]; intros i acc w acc' w' Hrun.
  - injection Hrun as <- <-. exists []. simpl.
    rewrite !app_nil_r, !Nat.add_0_r. repeat split; constructor.
  - rewrite runLoop_cons in Hrun.
    destruct (skipped s) eqn:Hs.
    + destruct (IH _ _ _ _ _ Hrun) as (evs & Ht & Hsucc & Hf & He & Hc).
      exists evs. repeat split; auto. now constructor.
    + destruct (endpoint (trim s) (remote w)) as [[[d|e]|m] x];
        cbv zeta in Hrun; [| |discriminate].
      * destruct (IH _ _ _ _ _ Hrun) as (evs & Ht & Hsucc & Hf & He & Hc).
        simpl in *.
        exists ([EvExecuteSQL i (trim s) (Normal (ExecOk d))]
                ++ (if i <? len - 1 then [EvDelay ms] else []) ++ evs).
        rewrite !failures_app, !successes_app, !calls_app.
        destruct (i <? len - 1); simpl;
          (repeat split;
           [rewrite Ht, <- !app_assoc; reflexivity | lia | lia | exact He
           | now constructor]).
      * destruct stop.
        { injection Hrun as <- <-.
          exists [EvExecuteSQL i (trim s) (Normal (ExecErr e))]. simpl.
          repeat split; auto. constructor; [exact Hs | constructor]. }
        destruct (IH _ _ _ _ _ Hrun) as (evs & Ht & Hsucc & Hf & He & Hc).
        simpl in *.
        exists ([EvExecuteSQL i (trim s) (Normal (ExecErr e))]
                ++ (if i <? len - 1 then [EvDelay ms] else []) ++ evs).
        rewrite !failures_app, !successes_app, !calls_app.
        destruct (i <? len - 1); simpl;
          (repeat split;
           [rewrite Ht, <- !app_assoc; reflexivity | lia | lia
           | rewrite He, <- app_assoc; reflexivity
           | now constructor]).
Qed.

(** The counters never exceed the number of elements visited. *)
Lemma runLoop_bound len ms stop rest :
  forall i acc (w : World W) acc' w',
  runLoop endpoint len ms stop i rest acc w = (Normal acc', w') ->
  t_successful acc' + t_failed acc'
  <= t_successful acc + t_failed acc + List.length rest.
Proof.
  induction rest as [|s rest IH]; intros i acc w acc' w' Hrun.
  - injection Hrun as <- <-. simpl. lia.
  - rewrite runLoop_cons in Hrun.
    destruct (skipped s).
    + apply IH in Hrun. simpl. lia.
    + destruct (endpoint (trim s) (remote w)) as [[[d|e]|m] x];
        cbv zeta in Hrun; [| |discriminate].
      * apply IH in Hrun. simpl in *. lia.
      * destruct stop.
        { injection Hrun as <- <-. simpl. lia. }
        apply IH in Hrun. simpl in *. lia.
Qed.

(** Without stop-on-first-error, and when the guard skips nothing, every
    element is counted. *)
Lemma runLoop_all_counted len ms rest :
  Forall (fun s => skipped s = false) rest ->
  forall i acc (w : World W) acc' w',
  runLoop endpoint len ms false i rest acc w = (Normal acc', w') ->
  t_successful acc' + t_failed acc'
  = t_successful acc + t_failed acc + List.length rest.
Proof.
  induction 1 as [|s rest Hs _ IH]; intros i acc w acc' w' Hrun.
  - injection Hrun as <- <-. simpl. lia.
  - rewrite runLoop_cons, Hs in Hrun.
    destruct (endpoint (trim s) (remote w)) as [[[d|e]|m] x];
      cbv zeta in Hrun; [| |discriminate];
      apply IH in Hrun; simpl in *; lia.
Qed.

(** With an endpoint that always succeeds the loop runs to its end. *)
Lemma runLoop_all_succeed len ms stop rest :
  (forall sql x, exists data x', endpoint sql x = (Normal (ExecOk data), x')) ->
  Forall (fun s => skipped s = false) rest ->
  forall i acc (w : World W),
  exists w',
    runLoop endpoint len ms stop i rest acc w =
    (Normal {| t_successful := t_successful acc + List.length rest;
               t_failed := t_failed acc;
               t_errors := t_errors acc |}, w')
    /\ failures (trace w') = failures (trace w).
Proof.
  intros Hok. induction 1 as [|s rest Hs _ IH]; intros i acc w.
  - exists w. simpl. rewrite Nat.add_0_r. destruct acc; auto.
  - rewrite runLoop_cons, Hs.
    destruct (Hok (trim s) (remote w)) as (d & x & ->). cbv zeta.
    edestruct IH as (w' & -> & Hf). exists w'. simpl. split.
    + do 2 f_equal. f_equal; lia.
    + rewrite Hf. unfold afterPause, afterCall. simpl.
      rewrite !failures_app. simpl.
      destruct (i <? len - 1); simpl; now rewrite !app_nil_r.
Qed.


(** ** The executor: [runMigration] and [runMigrationFile] as a whole *)

Lemma runMigration_run stmts options (w : World W) :
  runMigration endpoint stmts options w =
  match runLoop endpoint (List.length stmts)
          (orDefault (delayMs options) DEFAULT_DELAY_MS)
          (orDefault (stopOnError options) false) 0 stmts
          {| t_successful := 0; t_failed := 0; t_errors := [] |} w with
  | (Normal acc, w') =>
      (Normal {| total := List.length stmts;
                 successful := t_successful acc;
                 failed := t_failed acc;
                 errors := t_errors acc |}, w')
  | (Throw m, w') => (Throw m, w')
  end.
Proof. reflexivity. Qed.

Lemma runMigration_inv stmts options (w : World W) r w' :
  runMigration endpoint stmts options w = (Normal r, w') ->
  exists acc,
    runLoop endpoint (List.length stmts)
      (orDefault (delayMs options) DEFAULT_DELAY_MS)
      (orDefault (stopOnError options) false) 0 stmts
      {| t_successful := 0; t_failed := 0; t_errors := [] |} w
    = (Normal acc, w')
    /\ r = {| total := List.length stmts;
              successful := t_successful acc;
              failed := t_failed acc;
              errors := t_errors acc |}.
Proof.
  rewrite runMigration_run.
  destruct (runLoop _ _ _ _ _ _ _ _) as [[acc|m] w1]; [|discriminate].
  intros H. injection H as <- <-. eauto.
Qed.

Lemma runMigrationFile_absent filePath options (w : World W) :
  files (resolvePath isAbsolute joinCwd filePath) = Absent ->
  runMigrationFile endpoint isAbsolute joinCwd files filePath options w
  = (Normal fileNotFound, w).
Proof.
  intros H. unfold runMigrationFile, existsSync. now rewrite H.
Qed.

Lemma runMigrationFile_unreadable filePath options (w : World W) m :
  files (resolvePath isAbsolute joinCwd filePath) = Unreadable m ->
  runMigrationFile endpoint isAbsolute joinCwd files filePath options w
  = (Throw m, w).
Proof.
  intros H. unfold runMigrationFile, existsSync, bind, readFileSync.
  now rewrite H.
Qed.

Lemma runMigrationFile_readable filePath options (w : World W) sql :
  files (resolvePath isAbsolute joinCwd filePath) = Readable sql ->
  runMigrationFile endpoint isAbsolute joinCwd files filePath options w
  = runMigration endpoint (parseSQLStatements sql) options w.
Proof.
  intros H. unfold runMigrationFile, existsSync, bind, readFileSync.
  now rewrite H.
Qed.

End RunnerFacts.

(** ** The executor: the stated properties *)

Section ExecutorClaims.

Variable W : Type.
Variable endpoint : jsstring -> W -> Completion ExecResult * W.
Variable isAbsolute : jsstring -> bool.
Variable joinCwd : jsstring -> jsstring.
Variable files : jsstring -> FileEntry.

(** C1, as amended.  In every result, [successful + failed] is at most
    [total], and [total] is the length of the input.  The two are equal
    when stop-on-first-error is off and the guard skips no statement; the
    statements [runMigrationFile] parses are never skipped, so for it
    equality holds whenever stop-on-first-error is off. *)
Theorem counts_bounded_by_total :
  (forall stmts options (w : World W) r w',
      runMigration endpoint stmts options w = (Normal r, w') ->
      total r = List.length stmts
      /\ successful r + failed r <= total r
      /\ (orDefault (stopOnError options) false = false ->
          Forall (fun s => skipped s = false) stmts ->
          total r = successful r + failed r))
  /\ (forall filePath options (w : World W) r w',
      runMigrationFile endpoint isAbsolute joinCwd files filePath options w
      = (Normal r, w') ->
      successful r + failed r <= total r
      /\ (orDefault (stopOnError options) false = false ->
          total r = successful r + failed r)).
Proof.
  assert (Hrun : forall stmts options (w : World W) r w',
      runMigration endpoint stmts options w = (Normal r, w') ->
      total r = List.length stmts
      /\ successful r + failed r <= total r
      /\ (orDefault (stopOnError options) false = false ->
          Forall (fun s => skipped s = false) stmts ->
          total r = successful r + failed r)).
  { intros stmts options w r w' H.
    apply runMigration_inv in H. destruct H as (acc & Hloop & ->). simpl.
    split; [reflexivity|]. split.
    - apply runLoop_bound in Hloop. simpl in Hloop. exact Hloop.
    - intros Hstop Hall. rewrite Hstop in Hloop.
      apply runLoop_all_counted in Hloop; [|exact Hall].
      simpl in Hloop. lia. }
  split; [exact Hrun|].
  intros filePath options w r w' H.
  destruct (files (resolvePath isAbsolute joinCwd filePath)) as [|m|sql] eqn:E.
  - rewrite runMigrationFile_absent in H by exact E.
    injection H as <- <-. simpl. auto.
  - rewrite runMigrationFile_unreadable with (m := m) in H by exact E.
    discriminate.
  - rewrite runMigrationFile_readable with (sql := sql) in H by exact E.
    destruct (Hrun _ _ _ _ _ H) as (_ & Hle & Heq).
    split; [exact Hle|]. intros Hstop.
    apply Heq; [exact Hstop | apply parseSQLStatements_unskipped].
Qed.

(** C2, as amended.  For a path that does not exist [runMigrationFile]
    attempts nothing (the world is unchanged) and returns, instead of
    throwing, the result with all counts zero and the single entry
    [File not found]; for an entry that exists but cannot be read, the
    read error is thrown to the caller, again before anything is
    attempted. *)
Theorem missing_file_attempts_nothing filePath options (w : World W) :
  (files (resolvePath isAbsolute joinCwd filePath) = Absent ->
   runMigrationFile endpoint isAbsolute joinCwd files filePath options w
   = (Normal {| total := 0; successful := 0; failed := 0;
                errors := [lit "File not found"] |}, w))
  /\ (forall m,
      files (resolvePath isAbsolute joinCwd filePath) = Unreadable m ->
      runMigrationFile endpoint isAbsolute joinCwd files filePath options w
      = (Throw m, w)).
Proof.
  split.
  - apply runMigrationFile_absent.
  - intros m. apply runMigrationFile_unreadable.
Qed.

(** C3, as amended.  For every result of [runMigration], and of
    [runMigrationFile] when the file is there, the error list is the list
    of the failed calls in order, each rendered as
    [Statement <index + 1>: <detail>]; its length is the failed count; and
    a failed call at index [j] was the call made on the array element at
    index [j].  Calls are made in array order, at most one per element. *)
Theorem errors_are_tagged_failures stmts options (w : World W) r w' :
  runMigration endpoint stmts options w = (Normal r, w')
  \/ (exists filePath sql,
        files (resolvePath isAbsolute joinCwd filePath) = Readable sql
        /\ stmts = parseSQLStatements sql
        /\ runMigrationFile endpoint isAbsolute joinCwd files
             filePath options w = (Normal r, w')) ->
  exists evs,
    trace w' = trace w ++ evs
    /\ errors r = map (fun f => errorEntry (fst f) (snd f)) (failures evs)
    /\ failed r = List.length (failures evs)
    /\ List.length (errors r) = failed r
    /\ CallsOn 0 stmts (calls evs)
    /\ forall j e, In (j, e) (failures evs) ->
         exists s, nth_error stmts j = Some s
                   /\ In (EvExecuteSQL j (trim s) (Normal (ExecErr e))) evs.
Proof.
  intros H.
  assert (Hrun : runMigration endpoint stmts options w = (Normal r, w')).
  { destruct H as [H | (filePath & sql & E & -> & H)]; [exact H|].
    now rewrite runMigrationFile_readable with (sql := sql) in H. }
  clear H. apply runMigration_inv in Hrun.
  destruct Hrun as (acc & Hloop & ->).
  apply runLoop_trace in Hloop.
  destruct Hloop as (evs & Ht & _ & Hf & He & Hc). simpl in *.
  exists evs. repeat split; auto.
  - now rewrite He, length_map.
  - intros j e Hin.
    apply failures_In in Hin. destruct Hin as (sql & Hev).
    pose proof Hev as Hcall. apply calls_In in Hcall.
    destruct (CallsOn_In Hc _ _ Hcall) as (_ & s' & Hn & Htxt & _).
    subst sql.
    rewrite Nat.sub_0_r in Hn.
    exists s'. split; [exact Hn | exact Hev].
Qed.

(** C4, as amended.  Four statements, the first two not skipped by the
    guard; the endpoint succeeds on the first and fails on the second;
    stop-on-first-error is on.  Then the result has [successful = 1],
    [failed = 1], which is less than [total = 4], and the endpoint has
    received exactly two calls: it is never invoked on statements 3
    and 4. *)
Theorem stop_on_first_error_halts
        s1 s2 s3 s4 ms sil (w : World W) d1 e x1 x2 :
  skipped s1 = false ->
  skipped s2 = false ->
  endpoint (trim s1) (remote w) = (Normal (ExecOk d1), x1) ->
  endpoint (trim s2) x1 = (Normal (ExecErr e), x2) ->
  exists r w',
    runMigration endpoint [s1; s2; s3; s4]
      {| delayMs := ms; stopOnError := Some true; silent := sil |} w
    = (Normal r, w')
    /\ total r = 4 /\ successful r = 1 /\ failed r = 1
    /\ successful r + failed r < total r
    /\ errors r = [lit "Statement 2: " ++ e]
    /\ remote w' = x2
    /\ trace w' = trace w ++
         [EvExecuteSQL 0 (trim s1) (Normal (ExecOk d1));
          EvDelay (orDefault ms DEFAULT_DELAY_MS);
          EvExecuteSQL 1 (trim s2) (Normal (ExecErr e))].
Proof.
  intros Hs1 Hs2 H1 H2.
  rewrite runMigration_run. cbn [stopOnError delayMs orDefault List.length].
  rewrite runLoop_cons, Hs1, H1. cbv zeta.
  rewrite runLoop_cons, Hs2.
  change (remote (afterPause 4 0 (orDefault ms DEFAULT_DELAY_MS)
                    (afterCall 0 (trim s1) (Normal (ExecOk d1)) x1 w)))
    with x1.
  rewrite H2. cbv zeta.
  eexists _, _. split; [reflexivity|]. simpl.
  repeat split; try lia.
  now rewrite <- !app_assoc.
Qed.

(** C5, as amended.  With an endpoint that always succeeds, a list of [N]
    statements none of which the guard skips gives [total = N],
    [successful = N], [failed = 0] and no errors. *)
Theorem always_succeeding_counts_all stmts options (w : World W) :
  (forall sql x, exists data x', endpoint sql x = (Normal (ExecOk data), x')) ->
  Forall (fun s => skipped s = false) stmts ->
  exists w',
    runMigration endpoint stmts options w
    = (Normal {| total := List.length stmts;
                 successful := List.length stmts;
                 failed := 0;
                 errors := [] |}, w').
Proof.
  intros Hok Hall. rewrite runMigration_run.
  edestruct (@runLoop_all_succeed W endpoint) as (w' & -> & _);
    [exact Hok | exact Hall |].
  exists w'. reflexivity.
Qed.

(** C6, as amended.  Four statements none of which the guard skips; the
    endpoint fails on the second and succeeds on the other three;
    stop-on-first-error is off.  Then the result is [total = 4],
    [successful = 3], [failed = 1] with the single error entry
    [Statement 2: <detail>]. *)
Theorem continue_after_failure
        s1 s2 s3 s4 ms stop sil (w : World W) d1 e d3 d4 x1 x2 x3 x4 :
  orDefault stop false = false ->
  skipped s1 = false -> skipped s2 = false ->
  skipped s3 = false -> skipped s4 = false ->
  endpoint (trim s1) (remote w) = (Normal (ExecOk d1), x1) ->
  endpoint (trim s2) x1 = (Normal (ExecErr e), x2) ->
  endpoint (trim s3) x2 = (Normal (ExecOk d3), x3) ->
  endpoint (trim s4) x3 = (Normal (ExecOk d4), x4) ->
  exists w',
    runMigration endpoint [s1; s2; s3; s4]
      {| delayMs := ms; stopOnError := stop; silent := sil |} w
    = (Normal {| total := 4; successful := 3; failed := 1;
                 errors := [lit "Statement 2: " ++ e] |}, w')
    /\ remote w' = x4.
Proof.
  intros Hstop Hs1 Hs2 Hs3 Hs4 H1 H2 H3 H4.
  rewrite runMigration_run. cbn [stopOnError delayMs List.length].
  rewrite Hstop.
  rewrite runLoop_cons, Hs1, H1. cbv zeta.
  rewrite runLoop_cons, Hs2. cbn [remote afterPause afterCall].
  rewrite H2. cbv zeta.
  rewrite runLoop_cons, Hs3. cbn [remote afterPause afterCall].
  rewrite H3. cbv zeta.
  rewrite runLoop_cons, Hs4. cbn [remote afterPause afterCall].
  rewrite H4. cbv zeta.
  eexists. split; reflexivity.
Qed.

End ExecutorClaims.

(** ** Concrete runs *)

(** C1 as stated fails: with stop-on-first-error the run on four
    statements whose second fails returns [total = 4] but
    [successful + failed = 2]. *)
Lemma total_is_not_always_the_sum :
  exists r w',
    runMigration failSecond fourStatements stopping freshWorld = (Normal r, w')
    /\ total r = 4 /\ successful r = 1 /\ failed r = 1
    /\ total r <> successful r + failed r.
Proof.
  eexists _, _. split; [reflexivity|]. simpl.
  repeat split; discriminate.
Qed.

Lemma counts_bounded_witness :
  exists r w',
    runMigration failSecond fourStatements noOptions freshWorld = (Normal r, w')
    /\ successful r + failed r <= total r
    /\ total r = successful r + failed r.
Proof.
  eexists _, _. split; [reflexivity|].
  destruct (proj1 (@counts_bounded_by_total nat failSecond posixIsAbsolute
                     joinRepo someFiles)
                  fourStatements noOptions freshWorld _ _ eq_refl)
    as (_ & Hle & Heq).
  split; [exact Hle|]. apply Heq; [reflexivity | repeat constructor].
Defined.

(** C2 as stated fails: for a missing file [runMigrationFile] completes
    normally with a result, nothing is thrown, and [main] ends with exit
    status 0. *)
Lemma missing_file_is_not_fatal :
  runMigrationFile alwaysOk posixIsAbsolute joinRepo noFiles
    (lit "migrations/001.sql") noOptions freshWorld
  = (Normal fileNotFound, freshWorld)
  /\ (forall m,
       fst (runMigrationFile alwaysOk posixIsAbsolute joinRepo noFiles
              (lit "migrations/001.sql") noOptions freshWorld) <> Throw m)
  /\ main alwaysOk posixIsAbsolute joinRepo noFiles
       [lit "migrations/001.sql"] freshWorld = (0, freshWorld).
Proof.
  split; [reflexivity|]. split; [|reflexivity].
  intros m. discriminate.
Qed.

Lemma missing_file_witness :
  runMigrationFile alwaysOk posixIsAbsolute joinRepo someFiles
    (lit "migrations/002.sql") stopping freshWorld
  = (Normal fileNotFound, freshWorld)
  /\ runMigrationFile alwaysOk posixIsAbsolute joinRepo someFiles
       (lit "migrations") stopping freshWorld
     = (Throw (lit "EISDIR: illegal operation on a directory, read"),
        freshWorld).
Proof.
  split.
  - apply (proj1 (missing_file_attempts_nothing alwaysOk posixIsAbsolute
                    joinRepo someFiles (lit "migrations/002.sql") stopping
                    freshWorld)).
    reflexivity.
  - apply (proj2 (missing_file_attempts_nothing alwaysOk posixIsAbsolute
                    joinRepo someFiles (lit "migrations") stopping
                    freshWorld)).
    reflexivity.
Defined.

(** C3 as stated fails: the result for a missing file has one error entry
    and a failed count of zero, and the entry carries no position. *)
Lemma missing_file_error_is_not_counted :
  exists r w',
    runMigrationFile alwaysOk posixIsAbsolute joinRepo noFiles
      (lit "migrations/001.sql") noOptions freshWorld = (Normal r, w')
    /\ List.length (errors r) = 1 /\ failed r = 0
    /\ errors r = [lit "File not found"].
Proof.
  eexists _, _. split; [reflexivity|]. repeat split.
Qed.

Lemma tagged_failures_witness :
  exists evs,
    evs = [EvExecuteSQL 0 (lit "CREATE TABLE a (id int);")
             (Normal (ExecOk (lit "[]")));
           EvDelay 300;
           EvExecuteSQL 1 (lit "CREATE TABLE a (id int);")
             (Normal (ExecErr (lit "syntax error")));
           EvDelay 300;
           EvExecuteSQL 2 (lit "CREATE TABLE b (id int);")
             (Normal (ExecOk (lit "[]")));
           EvDelay 300;
           EvExecuteSQL 3 (lit "CREATE TABLE c (id int);")
             (Normal (ExecOk (lit "[]")))]
    /\ [lit "Statement 2: syntax error"]
       = map (fun f => errorEntry (fst f) (snd f)) (failures evs)
    /\ CallsOn 0 fourStatements (calls evs).
Proof.
  destruct (@errors_are_tagged_failures nat failSecond posixIsAbsolute
              joinRepo someFiles fourStatements noOptions freshWorld
              _ _ (or_introl eq_refl))
    as (evs & Ht & He & _ & _ & Hc & _).
  exists evs. simpl in Ht. subst evs. split; [reflexivity|].
  split; [exact He | exact Hc].
Defined.

(** C4 as stated fails when statement 1 is one the guard skips: the
    endpoint fails exactly on statement 2, but [successful] is 0. *)
Lemma stop_with_skipped_first_statement :
  (forall n, fst (failOn (lit "DROP TABLE a;") (lit "DROP TABLE a;") n)
             = Normal (ExecErr (lit "syntax error")))
  /\ (forall s n, In s commentFirst -> s <> lit "DROP TABLE a;" ->
        fst (failOn (lit "DROP TABLE a;") (trim s) n)
        = Normal (ExecOk (lit "[]")))
  /\ exists r w',
       runMigration (failOn (lit "DROP TABLE a;")) commentFirst stopping
         freshWorld = (Normal r, w')
       /\ total r = 4 /\ successful r = 0 /\ failed r = 1
       /\ successful r <> 1.
Proof.
  split; [reflexivity|]. split.
  - intros s n Hin Hne. simpl in Hin.
    decompose [or] Hin; subst; try reflexivity; contradiction.
  - eexists _, _. split; [reflexivity|]. simpl.
    repeat split; discriminate.
Qed.

Lemma stop_on_first_error_witness :
  exists r w',
    runMigration failSecond fourStatements stopping freshWorld = (Normal r, w')
    /\ total r = 4 /\ successful r = 1 /\ failed r = 1
    /\ successful r + failed r < total r
    /\ errors r = [lit "Statement 2: syntax error"]
    /\ remote w' = 2
    /\ trace w' =
       [EvExecuteSQL 0 (lit "CREATE TABLE a (id int);")
          (Normal (ExecOk (lit "[]")));
        EvDelay 300;
        EvExecuteSQL 1 (lit "CREATE TABLE a (id int);")
          (Normal (ExecErr (lit "syntax error")))].
Proof.
  apply (@stop_on_first_error_halts nat failSecond
           (lit "CREATE TABLE a (id int);") (lit "CREATE TABLE a (id int);")
           (lit "CREATE TABLE b (id int);") (lit "CREATE TABLE c (id int);")
           None None freshWorld (lit "[]") (lit "syntax error") 1 2);
    reflexivity.
Defined.

(** C5 as stated fails on a list holding a comment line: one element,
    an endpoint that always succeeds, and [successful = 0]. *)
Lemma comment_is_not_counted :
  exists r w',
    runMigration alwaysOk [lit "-- nothing to do"] noOptions freshWorld
    = (Normal r, w')
    /\ total r = 1 /\ successful r = 0 /\ failed r = 0
    /\ successful r <> List.length [lit "-- nothing to do"].
Proof.
  eexists _, _. split; [reflexivity|]. simpl.
  repeat split; discriminate.
Qed.

Lemma always_succeeding_witness :
  exists w',
    runMigration alwaysOk fourStatements stopping freshWorld
    = (Normal {| total := 4; successful := 4; failed := 0; errors := [] |}, w').
Proof.
  apply (@always_succeeding_counts_all nat alwaysOk fourStatements stopping
           freshWorld).
  - intros sql x. exists (lit "[]"), (S x). reflexivity.
  - repeat constructor.
Defined.

(** C6 as stated fails when one of the four is skipped by the guard: the
    endpoint fails exactly on statement 2, but [successful] is 2. *)
Lemma continue_with_skipped_first_statement :
  exists r w',
    runMigration (failOn (lit "DROP TABLE a;")) commentFirst noOptions
      freshWorld = (Normal r, w')
    /\ total r = 4 /\ successful r = 2 /\ failed r = 1
    /\ errors r = [lit "Statement 2: syntax error"]
    /\ successful r <> 3.
Proof.
  eexists _, _. split; [reflexivity|]. simpl.
  repeat split; discriminate.
Qed.

Lemma continue_after_failure_witness :
  exists w',
    runMigration failSecond fourStatements noOptions freshWorld
    = (Normal {| total := 4; successful := 3; failed := 1;
                 errors := [lit "Statement 2: syntax error"] |}, w')
    /\ remote w' = 4.
Proof.
  apply (@continue_after_failure nat failSecond
           (lit "CREATE TABLE a (id int);") (lit "CREATE TABLE a (id int);")
           (lit "CREATE TABLE b (id int);") (lit "CREATE TABLE c (id int);")
           None None None freshWorld
           (lit "[]") (lit "syntax error") (lit "[]") (lit "[]") 1 2 3 4);
    reflexivity.
Defined.

(** * Further properties *)

(** ** The splitter: what becomes of the kept lines *)

Lemma emitted_nil (chunks : list (list jsstring)) :
  emitted [] chunks = map (fun c => trim (unlines c)) chunks.
Proof. destruct chunks; reflexivity. Qed.

Lemma scan_chunks (lines : list jsstring) :
  forall st, BufferOk st ->
  exists chunks,
    List.concat chunks = keptFrom (inDollarQuote st) lines
    /\ Forall (fun ch => ch <> []) chunks
    /\ scanFinish (scanLines st lines)
       = statements st ++ emitted (current st) chunks.
Proof.
  induction lines as [|l ls IH]; intros st Hok.
  - exists []. simpl. repeat split; [constructor|].
    unfold scanFinish. destruct (isEmpty (trim (current st))); simpl;
      [now rewrite app_nil_r | reflexivity].
  - simpl keptFrom. simpl scanLines.
    destruct (negb (inDollarQuote st) && skipped l) eqn:Hskip.
    + apply andb_prop in Hskip. destruct Hskip as [Hq Hs].
      apply negb_true_iff in Hq.
      rewrite scanLine_skip by assumption. now apply IH.
    + assert (Hkeep : inDollarQuote st = true \/ skipped l = false).
      { destruct (inDollarQuote st); [auto|]. right. exact Hskip. }
      pose proof (scanLine_BufferOk l Hok) as Hok'.
      pose proof (buffer_guard l Hok Hkeep) as Hg.
      rewrite scanLine_keep in * by exact Hkeep. cbv zeta in *.
      rewrite Hg in *.
      destruct (negb (nextQuote (inDollarQuote st) (trim l))
                && endsWith (lit ";") (trim l)) eqn:Hend.
      * destruct (IH _ Hok') as (chunks & Hc & Hne & Hfin).
        simpl in Hc, Hfin. rewrite emitted_nil in Hfin.
        exists ([l] :: chunks). simpl. split; [now rewrite Hc|].
        split; [constructor; [discriminate | exact Hne]|].
        rewrite Hfin, <- app_assoc. simpl.
        unfold unlines. simpl. now rewrite app_nil_r.
      * destruct (IH _ Hok') as (chunks & Hc & Hne & Hfin).
        simpl in Hc, Hfin.
        destruct chunks as [|ch rest].
        -- exists [[l]]. simpl. split; [now rewrite <- Hc|].
           split; [repeat constructor; discriminate|].
           rewrite Hfin. simpl.
           apply andb_prop in Hg. destruct Hg as [Hg _].
           apply negb_true_iff in Hg. rewrite Hg.
           unfold unlines. simpl. now rewrite app_nil_r.
        -- exists ((l :: ch) :: rest). simpl. split; [now rewrite <- Hc|].
           inversion Hne; subst.
           split; [constructor; [discriminate | assumption]|].
           rewrite Hfin. simpl. unfold unlines. simpl.
           now rewrite <- !app_assoc.
Qed.

(** X1.  No kept line is lost, duplicated or reordered: the lines the
    loop keeps can be cut into consecutive non-empty chunks so that the
    statements returned are exactly the chunks, each joined with newlines
    and trimmed. *)
Theorem statements_are_chunks_of_kept_lines (sql : jsstring) :
  exists chunks,
    List.concat chunks = keptFrom false (split LF sql)
    /\ Forall (fun ch => ch <> []) chunks
    /\ parseSQLStatements sql = map (fun ch => trim (unlines ch)) chunks.
Proof.
  destruct (scan_chunks (split LF sql) BufferOk_init)
    as (chunks & Hc & Hne & Hfin).
  exists chunks. repeat split; auto.
  unfold parseSQLStatements. rewrite Hfin. simpl. apply emitted_nil.
Qed.

(** ** The splitter: scripts put one after the other *)

Lemma split_nonempty (sep : codeunit) (s : jsstring) : split sep s <> [].
Proof.
  induction s as [|c s IH]; simpl; [discriminate|].
  destruct (c =? sep)%N; [discriminate|].
  destruct (split sep s); [contradiction | discriminate].
Qed.

Lemma split_app_sep (sep : codeunit) (a b : jsstring) :
  split sep (a ++ sep :: b) = split sep a ++ split sep b.
Proof.
  induction a as [|c a IH]; simpl.
  - now rewrite N.eqb_refl.
  - destruct (c =? sep)%N; rewrite IH; [reflexivity|].
    pose proof (split_nonempty sep a) as Hne.
    destruct (split sep a); [contradiction | reflexivity].
Qed.

Lemma scanLine_withStatements pre st line :
  scanLine (withStatements pre st) line = withStatements pre (scanLine st line).
Proof.
  unfold scanLine, withStatements. simpl.
  repeat match goal with
         | |- context [if ?b then _ else _] => destruct b; simpl
         end; try reflexivity; now rewrite <- app_assoc.
Qed.

Lemma scanLines_withStatements pre lines :
  forall st,
  scanLines (withStatements pre st) lines = withStatements pre (scanLines st lines).
Proof.
  induction lines as [|l ls IH]; intros st; simpl; [reflexivity|].
  now rewrite scanLine_withStatements, IH.
Qed.

Lemma scanFinish_withStatements pre st :
  scanFinish (withStatements pre st) = pre ++ scanFinish st.
Proof.
  unfold scanFinish, withStatements. simpl.
  destruct (negb _); [now rewrite app_assoc | reflexivity].
Qed.

(** X2.  When the scan of a script [a] ends with an empty buffer (its
    last statement is closed), the statements of [a], a newline and a
    script [b] are the statements of [a] followed by those of [b]. *)
Theorem parse_after_complete_script (a b : jsstring) :
  current (scanLines scanInit (split LF a)) = [] ->
  parseSQLStatements (a ++ LF :: b)
  = parseSQLStatements a ++ parseSQLStatements b.
Proof.
  intros Hcur. unfold parseSQLStatements.
  rewrite split_app_sep, scanLines_app.
  set (st := scanLines scanInit (split LF a)) in *.
  assert (Hok : BufferOk st) by apply scanLines_BufferOk, BufferOk_init.
  assert (Hq : inDollarQuote st = false).
  { destruct Hok as [[_ Hq] | (l & r & E & _)]; [exact Hq|].
    rewrite Hcur in E. destruct l; discriminate. }
  assert (Hst : st = withStatements (statements st) scanInit).
  { destruct st as [ss cur q]. simpl in *. subst.
    unfold withStatements. simpl. now rewrite app_nil_r. }
  rewrite Hst at 1.
  rewrite scanLines_withStatements, scanFinish_withStatements.
  f_equal. unfold scanFinish. now rewrite Hcur.
Qed.

Lemma parse_after_complete_witness :
  parseSQLStatements (lit "SELECT 1;" ++ LF :: functionScript)
  = [lit "SELECT 1;"] ++ parseSQLStatements functionScript.
Proof.
  apply (parse_after_complete_script (lit "SELECT 1;") functionScript).
  reflexivity.
Defined.

(** ** The splitter: where statements end *)

Lemma trimStart_decompose (s : jsstring) :
  exists pre, s = pre ++ trimStart s /\ forallb isWhiteSpace pre = true.
Proof.
  induction s as [|c s (pre & E & Hpre)]; simpl.
  - exists []. auto.
  - destruct (isWhiteSpace c) eqn:Hc.
    + exists (c :: pre). simpl. rewrite Hc, Hpre. split; [now f_equal|auto].
    + exists []. auto.
Qed.

Lemma startsWith_one_app (c : codeunit) (t r : jsstring) :
  t <> [] -> startsWith [c] (t ++ r) = startsWith [c] t.
Proof. destruct t; [contradiction | reflexivity]. Qed.

Lemma endsWith_one_app (c : codeunit) (pre z : jsstring) :
  z <> [] -> endsWith [c] (pre ++ z) = endsWith [c] z.
Proof.
  intros Hz. unfold endsWith. rewrite rev_app_distr. simpl rev.
  apply startsWith_one_app.
  intros E. apply (f_equal (@rev _)) in E. rewrite rev_involutive in E.
  contradiction.
Qed.

Lemma endsWith_one_trim (c : codeunit) (x : jsstring) :
  endsWith [c] (trim x) = endsWith [c] (trimEnd x).
Proof.
  destruct (trimStart_decompose x) as (pre & E & Hpre).
  destruct (trimStart x) as [|d t] eqn:Ex.
  - rewrite app_nil_r in E. subst pre.
    rewrite (trim_blank _ Ex).
    apply trimEnd_nil_iff in Hpre. now rewrite Hpre.
  - assert (Hd : isWhiteSpace d = false) by (eapply trimStart_head; eauto).
    assert (Hne : trimEnd (d :: t) <> []).
    { rewrite trimEnd_nonws_head by exact Hd. discriminate. }
    rewrite (trim_cons _ Ex), E.
    rewrite trimEnd_app_nonblank by exact Hne.
    rewrite endsWith_one_app by exact Hne.
    now rewrite trimEnd_nonws_head by exact Hd.
Qed.

Lemma endsWith_one_trimEnd (c : codeunit) (y : jsstring) :
  endsWith [c] (trimEnd y) = startsWith [c] (trimStart (rev y)).
Proof. unfold endsWith, trimEnd. now rewrite rev_involutive. Qed.

(** The buffer ends like its last line. *)
Lemma buffer_ends_like_line (cur line : jsstring) :
  endsWith (lit ";") (trim line) = true ->
  endsWith (lit ";") (trim (cur ++ line ++ [LF])) = true.
Proof.
  change (lit ";") with [59%N].
  rewrite !endsWith_one_trim, !endsWith_one_trimEnd. intros H.
  rewrite !rev_app_distr. simpl rev. simpl app at 1.
  change (trimStart (LF :: rev line ++ rev cur))
    with (trimStart (rev line ++ rev cur)).
  assert (Hne : trimStart (rev line) <> []).
  { intros E. rewrite E in H. discriminate. }
  rewrite trimStart_app_nonblank by exact Hne.
  now rewrite startsWith_one_app.
Qed.

Lemma scanLine_terminated (st : ScanState) (line : jsstring) :
  Forall (fun s => endsWith (lit ";") s = true) (statements st) ->
  Forall (fun s => endsWith (lit ";") s = true) (statements (scanLine st line)).
Proof.
  intros H. unfold scanLine.
  destruct (negb (inDollarQuote st) && _); [exact H|].
  cbv zeta.
  destruct (negb _ && endsWith (lit ";") (trim line)) eqn:Hend;
    [|exact H].
  simpl. destruct (negb _ && negb _); [|exact H].
  apply Forall_app. split; [exact H|].
  constructor; [|constructor].
  apply andb_prop in Hend. destruct Hend as [_ Hend].
  now apply buffer_ends_like_line.
Qed.

Lemma scanLines_terminated (lines : list jsstring) :
  forall st,
  Forall (fun s => endsWith (lit ";") s = true) (statements st) ->
  Forall (fun s => endsWith (lit ";") s = true)
         (statements (scanLines st lines)).
Proof.
  induction lines as [|l ls IH]; intros st H; simpl; [exact H|].
  apply IH, scanLine_terminated, H.
Qed.

Lemma Forall_removelast {A : Type} (P : A -> Prop) (l : list A) :
  Forall P l -> Forall P (removelast l).
Proof.
  induction 1 as [|x l Hx Hl IH]; simpl; [constructor|].
  destruct l; [constructor|]. constructor; assumption.
Qed.

(** X3.  Every statement returned, except possibly the last one, ends
    with a semicolon: only the trailing-buffer rule can emit a statement
    without its terminator. *)
Theorem all_but_last_end_with_semicolon (sql : jsstring) :
  Forall (fun s => endsWith (lit ";") s = true)
         (removelast (parseSQLStatements sql)).
Proof.
  unfold parseSQLStatements, scanFinish.
  set (st := scanLines scanInit (split LF sql)).
  assert (H : Forall (fun s => endsWith (lit ";") s = true) (statements st)).
  { apply scanLines_terminated. constructor. }
  destruct (negb _).
  - now rewrite removelast_last.
  - now apply Forall_removelast.
Qed.

(** ** The executor: order, pacing and thrown errors *)

Lemma thrown_app (a b : list Event) : thrown (a ++ b) = thrown a ++ thrown b.
Proof. apply flat_map_app. Qed.

Lemma Paced_step (ms : N) (len i : nat) ev (evs : list Event) :
  (exists sql r, ev = EvExecuteSQL i sql r) ->
  Paced ms evs ->
  ((i <? len - 1) = false -> evs = []) ->
  Paced ms ([ev] ++ (if i <? len - 1 then [EvDelay ms] else []) ++ evs).
Proof.
  intros (sql & r & ->) Hp Hlast.
  destruct (i <? len - 1); simpl.
  - now constructor.
  - rewrite Hlast by reflexivity. constructor.
Qed.

Section RunnerOrder.

Variable W : Type.
Variable endpoint : jsstring -> W -> Completion ExecResult * W.

(** Everything a run of the loop does, however it completes. *)
Lemma runLoop_run len ms stop rest :
  forall i acc (w : World W) c w',
  len = i + List.length rest ->
  runLoop endpoint len ms stop i rest acc w = (c, w') ->
  exists evs later,
    trace w' = trace w ++ evs
    /\ Paced ms evs
    /\ submittedFrom i rest = calls evs ++ later
    /\ match c with
       | Normal _ =>
           thrown evs = []
           /\ (stop = false \/ failures evs = [] -> later = [])
       | Throw m =>
           exists evs0 j sql,
             evs = evs0 ++ [EvExecuteSQL j sql (Throw m)]
             /\ thrown evs0 = []
       end.
Proof.
  induction rest as [|s rest IH]; intros i acc w c w' Hlen Hrun.
  - injection Hrun as <- <-. exists [], []. simpl.
    rewrite app_nil_r. repeat split; auto. constructor.
  - assert (Hlen' : len = S i + List.length rest) by (simpl in Hlen; lia).
    assert (Hlast : forall evs' (w1 w2 : World W) c' acc1,
               (i <? len - 1) = false ->
               runLoop endpoint len ms stop (S i) rest acc1 w1 = (c', w2) ->
               trace w2 = trace w1 ++ evs' -> evs' = []).
    { intros evs' w1 w2 c' acc1 Hi Hr Ht.
      apply Nat.ltb_ge in Hi.
      assert (rest = []) by (destruct rest; [reflexivity | simpl in *; lia]).
      subst rest. injection Hr as <- <-.
      rewrite <- (app_nil_r (trace w1)) in Ht at 1.
      now apply app_inv_head in Ht. }
    rewrite runLoop_cons in Hrun. simpl submittedFrom.
    destruct (skipped s) eqn:Hs; [now apply (IH _ _ _ _ _ Hlen' Hrun)|].
    destruct (endpoint (trim s) (remote w)) as [[[d|e]|m] x];
      cbv zeta in Hrun.
    + destruct (IH _ _ _ _ _ Hlen' Hrun) as (evs & later & Ht & Hp & Hsub & Hc).
      exists ([EvExecuteSQL i (trim s) (Normal (ExecOk d))]
              ++ (if i <? len - 1 then [EvDelay ms] else []) ++ evs), later.
      split; [rewrite Ht; cbn [trace afterPause afterCall];
              rewrite <- !app_assoc; reflexivity|].
      split.
      { apply Paced_step;
          [eexists _, _; reflexivity | exact Hp
          | intros Hi; eapply Hlast; [exact Hi | exact Hrun | exact Ht]]. }
      rewrite !calls_app, !thrown_app, !failures_app.
      assert (Hd : forall b : bool,
                 calls (if b then [EvDelay ms] else []) = []
                 /\ thrown (if b then [EvDelay ms] else []) = []
                 /\ failures (if b then [EvDelay ms] else []) = [])
        by (intros []; auto).
      destruct (Hd (i <? len - 1)) as (-> & -> & ->).
      cbn [calls thrown failures flat_map app].
      split; [now rewrite Hsub|].
      destruct c as [acc'|m]; [exact Hc|].
      destruct Hc as (evs0 & j & sql & -> & Hth).
      exists ([EvExecuteSQL i (trim s) (Normal (ExecOk d))]
              ++ (if i <? len - 1 then [EvDelay ms] else []) ++ evs0), j, sql.
      split; [now rewrite <- !app_assoc|].
      rewrite !thrown_app. destruct (Hd (i <? len - 1)) as (_ & -> & _).
      exact Hth.
    + destruct stop.
      { injection Hrun as <- <-.
        exists [EvExecuteSQL i (trim s) (Normal (ExecErr e))],
               (submittedFrom (S i) rest).
        cbn [calls thrown failures flat_map app].
        split; [reflexivity|]. split; [constructor|].
        split; [reflexivity|]. split; [reflexivity|].
        intros [H|H]; discriminate. }
      destruct (IH _ _ _ _ _ Hlen' Hrun) as (evs & later & Ht & Hp & Hsub & Hc).
      exists ([EvExecuteSQL i (trim s) (Normal (ExecErr e))]
              ++ (if i <? len - 1 then [EvDelay ms] else []) ++ evs), later.
      split; [rewrite Ht; cbn [trace afterPause afterCall];
              rewrite <- !app_assoc; reflexivity|].
      split.
      { apply Paced_step;
          [eexists _, _; reflexivity | exact Hp
          | intros Hi; eapply Hlast; [exact Hi | exact Hrun | exact Ht]]. }
      rewrite !calls_app, !thrown_app, !failures_app.
      assert (Hd : forall b : bool,
                 calls (if b then [EvDelay ms] else []) = []
                 /\ thrown (if b then [EvDelay ms] else []) = []
                 /\ failures (if b then [EvDelay ms] else []) = [])
        by (intros []; auto).
      destruct (Hd (i <? len - 1)) as (-> & -> & ->).
      cbn [calls thrown failures flat_map app].
      split; [now rewrite Hsub|].
      destruct c as [acc'|m].
      * destruct Hc as [Hth Hl]. split; [exact Hth|].
        intros _. apply Hl. now left.
      * destruct Hc as (evs0 & j & sql & -> & Hth).
        exists ([EvExecuteSQL i (trim s) (Normal (ExecErr e))]
                ++ (if i <? len - 1 then [EvDelay ms] else []) ++ evs0), j, sql.
        split; [now rewrite <- !app_assoc|].
        rewrite !thrown_app. destruct (Hd (i <? len - 1)) as (_ & -> & _).
        exact Hth.
    + injection Hrun as <- <-.
      exists [EvExecuteSQL i (trim s) (Throw m)], (submittedFrom (S i) rest).
      cbn [calls thrown failures flat_map app].
      split; [reflexivity|]. split; [constructor|].
      split; [reflexivity|].
      exists [], i, (trim s). split; reflexivity.
Qed.

End RunnerOrder.

Lemma submittedFrom_statements (l : list jsstring) :
  Forall IsStatement l ->
  forall i, submittedFrom i l = combine (seq i (List.length l)) l.
Proof.
  induction 1 as [|s l (_ & Ht & Hs) _ IH]; intros i; simpl; [reflexivity|].
  now rewrite Hs, Ht, IH.
Qed.

Section ExecutorOrder.

Variable W : Type.
Variable endpoint : jsstring -> W -> Completion ExecResult * W.
Variable isAbsolute : jsstring -> bool.
Variable joinCwd : jsstring -> jsstring.
Variable files : jsstring -> FileEntry.

Lemma runMigration_loop stmts options (w : World W) c w' :
  runMigration endpoint stmts options w = (c, w') ->
  exists c0,
    runLoop endpoint (List.length stmts)
      (orDefault (delayMs options) DEFAULT_DELAY_MS)
      (orDefault (stopOnError options) false) 0 stmts
      {| t_successful := 0; t_failed := 0; t_errors := [] |} w = (c0, w')
    /\ match c, c0 with
       | Normal r, Normal acc => failed r = t_failed acc
       | Throw m, Throw m0 => m = m0
       | _, _ => False
       end.
Proof.
  rewrite runMigration_run.
  destruct (runLoop _ _ _ _ _ _ _ _) as [[acc|m] w1]; intros H;
    injection H as <- <-; eexists; split; reflexivity.
Qed.

(** A run that returns, seen whole. *)
Lemma runMigration_normal_run stmts options (w : World W) r w' :
  runMigration endpoint stmts options w = (Normal r, w') ->
  exists evs later,
    trace w' = trace w ++ evs
    /\ Paced (orDefault (delayMs options) DEFAULT_DELAY_MS) evs
    /\ submittedFrom 0 stmts = calls evs ++ later
    /\ thrown evs = []
    /\ failed r = List.length (failures evs)
    /\ total r = List.length stmts
    /\ (orDefault (stopOnError options) false = false \/ failures evs = [] ->
        later = []).
Proof.
  intros H. apply runMigration_inv in H.
  destruct H as (acc & Hloop & ->).
  pose proof Hloop as Hl1. apply runLoop_trace in Hl1.
  destruct Hl1 as (evs1 & Ht1 & _ & Hf & _).
  apply runLoop_run in Hloop; [|reflexivity].
  destruct Hloop as (evs & later & Ht & Hp & Hsub & Hth & Hl).
  rewrite Ht in Ht1. apply app_inv_head in Ht1. subst evs1.
  exists evs, later. repeat split; auto.
Qed.

(** X4.  Statements are submitted strictly in array order, each at most
    once and none ahead of an earlier one: the calls made are a prefix of
    the elements the guard lets through (with their indices and trimmed
    texts), and all of them when stop-on-first-error is off or nothing
    failed. *)
Theorem statements_run_in_order stmts options (w : World W) r w' :
  runMigration endpoint stmts options w = (Normal r, w') ->
  exists evs later,
    trace w' = trace w ++ evs
    /\ submittedFrom 0 stmts = calls evs ++ later
    /\ (orDefault (stopOnError options) false = false \/ failed r = 0 ->
        later = []).
Proof.
  intros H. apply runMigration_normal_run in H.
  destruct H as (evs & later & Ht & _ & Hsub & _ & Hf & _ & Hl).
  exists evs, later. repeat split; auto.
  intros [Hs | Hz]; apply Hl; [now left | right].
  rewrite Hf in Hz. now apply length_zero_iff_nil.
Qed.

(** X5.  Rate limiting: however a run completes, the trace it leaves
    consists of calls and delays only, and between any two consecutive
    calls there is exactly one delay of the configured length (300 ms by
    default). *)
Theorem calls_are_paced stmts options (w : World W) c w' :
  runMigration endpoint stmts options w = (c, w') ->
  exists evs,
    trace w' = trace w ++ evs
    /\ Paced (orDefault (delayMs options) DEFAULT_DELAY_MS) evs.
Proof.
  intros H. apply runMigration_loop in H. destruct H as (c0 & Hloop & _).
  apply runLoop_run in Hloop; [|reflexivity].
  destruct Hloop as (evs & later & Ht & Hp & _). eauto.
Qed.

(** X6.  An exception of [executeSQL] is not caught: [runMigration]
    throws the same error, the throwing call is the last thing it does,
    it is a call on a statement the guard lets through, and no earlier
    call threw. *)
Theorem thrown_call_ends_the_run stmts options (w : World W) m w' :
  runMigration endpoint stmts options w = (Throw m, w') ->
  exists evs j sql,
    trace w' = trace w ++ evs ++ [EvExecuteSQL j sql (Throw m)]
    /\ thrown evs = []
    /\ In (j, sql) (submittedFrom 0 stmts).
Proof.
  intros H. apply runMigration_loop in H.
  destruct H as ([acc|m0] & Hloop & Hc); [contradiction|]. subst m0.
  apply runLoop_run in Hloop; [|reflexivity].
  destruct Hloop as (evs & later & Ht & _ & Hsub & evs0 & j & sql & -> & Hth).
  exists evs0, j, sql. repeat split; auto.
  rewrite Hsub, calls_app. simpl.
  apply in_or_app. left. apply in_or_app. right. now left.
Qed.

(** X7.  What the parser returns is what the endpoint receives: when
    [runMigrationFile] reads a file and completes with stop-on-first-error
    off (or without a failure), the calls made are exactly the parsed
    statements, unchanged and in order, the [k]-th at index [k]. *)
Theorem parsed_statements_are_sent_verbatim
        filePath sql options (w : World W) r w' :
  files (resolvePath isAbsolute joinCwd filePath) = Readable sql ->
  runMigrationFile endpoint isAbsolute joinCwd files filePath options w
  = (Normal r, w') ->
  orDefault (stopOnError options) false = false \/ failed r = 0 ->
  exists evs,
    trace w' = trace w ++ evs
    /\ calls evs = combine (seq 0 (List.length (parseSQLStatements sql)))
                           (parseSQLStatements sql)
    /\ total r = List.length (parseSQLStatements sql).
Proof.
  intros Hfile Hrun Hcond.
  rewrite runMigrationFile_readable with (sql := sql) in Hrun by exact Hfile.
  apply runMigration_normal_run in Hrun.
  destruct Hrun as (evs & later & Ht & _ & Hsub & _ & Hf & Htot & Hl).
  assert (Hlater : later = []).
  { apply Hl. destruct Hcond as [Hs | Hz]; [now left | right].
    rewrite Hf in Hz. now apply length_zero_iff_nil. }
  rewrite Hlater, app_nil_r in Hsub.
  exists evs. repeat split; auto.
  rewrite <- Hsub. apply submittedFrom_statements.
  apply parseSQLStatements_IsStatement.
Qed.

(** X8.  Exit status 0 for a file that is there means that all went
    well: every parsed statement was submitted, in order and unchanged, no
    call failed or threw, and consecutive calls were 200 ms apart. *)
Theorem main_success_means_all_ran arg args sql (w : World W) w' :
  main endpoint isAbsolute joinCwd files (arg :: args) w = (0, w') ->
  files (resolvePath isAbsolute joinCwd (resolvePath isAbsolute joinCwd arg))
  = Readable sql ->
  exists evs,
    trace w' = trace w ++ evs
    /\ calls evs = combine (seq 0 (List.length (parseSQLStatements sql)))
                           (parseSQLStatements sql)
    /\ failures evs = []
    /\ thrown evs = []
    /\ Paced 200 evs.
Proof.
  unfold main. intros Hmain Hfile.
  destruct (isEmpty arg); [discriminate|].
  destruct (runMigrationFile _ _ _ _ _ _ _) as [[r|m] w1] eqn:Hrun;
    [|discriminate].
  destruct (0 <? failed r) eqn:Hf; [discriminate|].
  injection Hmain as <-. apply Nat.ltb_ge in Hf.
  rewrite runMigrationFile_readable with (sql := sql) in Hrun by exact Hfile.
  apply runMigration_normal_run in Hrun.
  destruct Hrun as (evs & later & Ht & Hp & Hsub & Hth & Hfl & _ & Hl).
  assert (Hnone : failures evs = []).
  { apply length_zero_iff_nil. lia. }
  rewrite (Hl (or_intror Hnone)), app_nil_r in Hsub.
  exists evs. repeat split; auto.
  rewrite <- Hsub. apply submittedFrom_statements.
  apply parseSQLStatements_IsStatement.
Qed.

End ExecutorOrder.

Lemma startsWith_prefix (p s : jsstring) : startsWith p (p ++ s) = true.
Proof.
  induction p as [|c p IH]; simpl; [reflexivity|].
  now rewrite N.eqb_refl, IH.
Qed.

(** Removing a prefix with [replace]. *)
Lemma replaceFirst_prefix (p s : jsstring) : replaceFirst p [] (p ++ s) = s.
Proof.
  destruct p as [|c p]; [destruct s; reflexivity|].
  change (replaceFirst (c :: p) [] ((c :: p) ++ s))
    with (if startsWith (c :: p) ((c :: p) ++ s)
          then [] ++ skipn (List.length (c :: p)) ((c :: p) ++ s)
          else c :: replaceFirst (c :: p) [] (p ++ s)).
  rewrite startsWith_prefix. simpl app at 1.
  rewrite skipn_app, skipn_all, Nat.sub_diag. reflexivity.
Qed.

(** ** The access token *)

Section TokenFacts.

Variable decodeBase64 : jsstring -> jsstring.

Lemma truthy_Some (v : option jsstring) :
  truthy v = true -> exists c t, v = Some (c :: t).
Proof. destruct v as [[|c t]|]; try discriminate. eauto. Qed.

(** X9.  The token is looked up once: after a call of [getAccessToken]
    has returned a non-empty token, every later call returns that same
    token and leaves the cache alone, whatever the environment variable
    and the keychain hold by then. *)
Theorem token_is_cached src cached token cached' :
  getAccessToken decodeBase64 src cached = (Normal token, cached') ->
  token <> [] ->
  forall src',
    getAccessToken decodeBase64 src' cached' = (Normal token, cached').
Proof.
  unfold getAccessToken. intros H Hne src'.
  destruct (truthy cached) eqn:Hc.
  - injection H as <- <-. now rewrite Hc.
  - destruct (truthy (envToken src)) eqn:He.
    + injection H as <- <-. now rewrite He.
    + destruct (keychain src) as [out|e]; [|discriminate].
      cbv zeta in H. injection H as Htok Hcache.
      rewrite Htok in Hcache. subst cached'.
      destruct token; [contradiction | reflexivity].
Qed.

Lemma getAccessToken_throws_iff src cached :
  (exists m, fst (getAccessToken decodeBase64 src cached) = Throw m)
  <-> (truthy cached = false /\ truthy (envToken src) = false
       /\ exists e, keychain src = Throw e).
Proof.
  unfold getAccessToken. split.
  - intros (m & H).
    destruct (truthy cached); [discriminate|].
    destruct (truthy (envToken src)); [discriminate|].
    destruct (keychain src) as [out|e]; [discriminate|]. eauto.
  - intros (-> & -> & e & ->). eexists. reflexivity.
Qed.

Lemma token_failure_result src cached e :
  truthy cached = false -> truthy (envToken src) = false ->
  keychain src = Throw e ->
  getAccessToken decodeBase64 src cached = (Throw tokenError, cached).
Proof.
  unfold getAccessToken. now intros -> -> ->.
Qed.

(** X10.  [getAccessToken] throws exactly when nothing usable is cached,
    the environment variable is unset or empty and the keychain command
    fails; the error is then the fixed login hint and the cache is left as
    it was, so that a later call tries again. *)
Theorem token_failure src cached :
  (forall m cached',
     getAccessToken decodeBase64 src cached = (Throw m, cached') ->
     m = tokenError /\ cached' = cached
     /\ truthy cached = false /\ truthy (envToken src) = false
     /\ exists e, keychain src = Throw e)
  /\ (truthy cached = false -> truthy (envToken src) = false ->
      (exists e, keychain src = Throw e) ->
      getAccessToken decodeBase64 src cached = (Throw tokenError, cached)).
Proof.
  split.
  - intros m cached' H.
    assert (Hex : exists m, fst (getAccessToken decodeBase64 src cached)
                            = Throw m) by (rewrite H; simpl; eauto).
    apply getAccessToken_throws_iff in Hex.
    destruct Hex as (Hc & He & e & Hk).
    rewrite (token_failure_result _ _ Hc He Hk) in H.
    injection H as <- <-. repeat split; eauto.
  - intros Hc He (e & Hk). now apply token_failure_result with (e := e).
Qed.

(** X11.  Clearing the cache makes the next call start over, and the
    environment variable is then consulted before the keychain: whatever
    was cached and whatever the keychain command would return, a
    non-empty variable becomes the token and is cached. *)
Theorem clear_then_env_token old kc token :
  token <> [] ->
  getAccessToken decodeBase64 {| envToken := Some token; keychain := kc |}
    (clearTokenCache old)
  = (Normal token, Some token).
Proof.
  intros Hne. unfold getAccessToken, clearTokenCache.
  cbn [truthy envToken]. destruct token; [contradiction | reflexivity].
Qed.

(** X12.  A keychain entry written by go-keyring is unwrapped: for an
    output that, once trimmed, is the marker [go-keyring-base64:] followed
    by [payload], the token is the base64 decoding of exactly [payload];
    an output that does not start with the marker is the token itself,
    trimmed. *)
Theorem keyring_entry_is_decoded out :
  (forall payload,
     trim out = keyringPrefix ++ payload ->
     getAccessToken decodeBase64
       {| envToken := None; keychain := Normal out |} None
     = (Normal (decodeBase64 payload), Some (decodeBase64 payload)))
  /\ (startsWith keyringPrefix (trim out) = false ->
      getAccessToken decodeBase64
        {| envToken := None; keychain := Normal out |} None
      = (Normal (trim out), Some (trim out))).
Proof.
  unfold getAccessToken. cbn [truthy envToken keychain]. cbv zeta. split.
  - intros payload E. rewrite E.
    now rewrite startsWith_prefix, replaceFirst_prefix.
  - now intros ->.
Qed.

End TokenFacts.

(** ** The request behind [executeSQL], and runs that use it *)

Section NeverThrows.

Variable W : Type.
Variable endpoint : jsstring -> W -> Completion ExecResult * W.

(** A property of the remote state under which the endpoint answers
    without throwing, and which its answers preserve. *)
Variable Ready : W -> Prop.
Hypothesis ready_answers :
  forall sql x, Ready x ->
  exists r x', endpoint sql x = (Normal r, x') /\ Ready x'.

Lemma runLoop_returns len ms stop rest :
  forall i acc (w : World W),
  Ready (remote w) ->
  exists acc' w',
    runLoop endpoint len ms stop i rest acc w = (Normal acc', w')
    /\ Ready (remote w').
Proof.
  induction rest as [|s rest IH]; intros i acc w Hr.
  - exists acc, w. split; [reflexivity | exact Hr].
  - rewrite runLoop_cons. destruct (skipped s); [now apply IH|].
    destruct (ready_answers (trim s) Hr) as ([d|e] & x & -> & Hx); cbv zeta.
    + apply IH. exact Hx.
    + destruct stop; [|apply IH; exact Hx].
      eexists _, _. split; [reflexivity | exact Hx].
Qed.

(** The first call throws: the run ends there. *)
Lemma runLoop_first_call_throws len ms stop rest m :
  forall i acc (w : World W) j sql later,
  (forall q, exists x, endpoint q (remote w) = (Throw m, x) /\ x = remote w) ->
  submittedFrom i rest = (j, sql) :: later ->
  runLoop endpoint len ms stop i rest acc w
  = (Throw m, afterCall j sql (Throw m) (remote w) w).
Proof.
  induction rest as [|s rest IH]; intros i acc w j sql later Hthrow Hsub.
  - discriminate.
  - rewrite runLoop_cons. simpl in Hsub.
    destruct (skipped s); [now apply IH with (later := later)|].
    injection Hsub as <- <- _.
    destruct (Hthrow (trim s)) as (x & -> & ->). reflexivity.
Qed.

End NeverThrows.

Section RequestFacts.

Variable decodeBase64 : jsstring -> jsstring.
Variable F : Type.
Variable fetch : jsstring -> jsstring -> F -> FetchOutcome * F.


Lemma request_with_token src token sql st :
  tokenReady token st ->
  exists r st',
    executeSQLRequest decodeBase64 fetch src sql st = (Normal r, st')
    /\ tokenReady token st'.
Proof.
  intros [Hc Hne]. destruct st as [cached f]. simpl in Hc. subst cached.
  unfold executeSQLRequest, getAccessToken. cbn [fst snd].
  destruct token as [|c t]; [contradiction|]. cbn [truthy orDefault].
  destruct (fetch (c :: t) sql f) as [[e | [|] [text|e]] f'];
    eexists _, _; (split; [reflexivity | split; [reflexivity | exact Hne]]).
Qed.

(** X14.  Once a token is cached, a migration cannot abort: whatever the
    network does, [runMigration] over the real [executeSQL] returns a
    result, and the token is still cached afterwards. *)
Theorem migration_with_token_always_returns
        src token stmts options (w : World (option jsstring * F)) :
  fst (remote w) = Some token -> token <> [] ->
  exists r w',
    runMigration (executeSQLRequest decodeBase64 fetch src) stmts options w
    = (Normal r, w')
    /\ fst (remote w') = Some token.
Proof.
  intros Hc Hne. rewrite runMigration_run.
  destruct (@runLoop_returns _ (executeSQLRequest decodeBase64 fetch src)
              (tokenReady token)
              (fun sql x => @request_with_token src token sql x)
              (List.length stmts)
              (orDefault (delayMs options) DEFAULT_DELAY_MS)
              (orDefault (stopOnError options) false) stmts 0
              {| t_successful := 0; t_failed := 0; t_errors := [] |} w)
    as (acc & w' & -> & Hr & _); [split; assumption|].
  eexists _, _. split; [reflexivity | exact Hr].
Qed.

(** X15.  A missing credential is fatal before anything is sent: with
    nothing cached, no environment variable and a failing keychain,
    [runMigration] throws the login hint at the first statement the guard
    lets through; no request has been made and no later statement is
    looked at. *)
Theorem migration_without_token_throws_at_once
        src e stmts options (w : World (option jsstring * F)) j sql later :
  truthy (fst (remote w)) = false ->
  truthy (envToken src) = false ->
  keychain src = Throw e ->
  submittedFrom 0 stmts = (j, sql) :: later ->
  runMigration (executeSQLRequest decodeBase64 fetch src) stmts options w
  = (Throw tokenError,
     {| remote := remote w;
        trace := trace w ++ [EvExecuteSQL j sql (Throw tokenError)] |}).
Proof.
  intros Hc He Hk Hsub. rewrite runMigration_run.
  rewrite (@runLoop_first_call_throws _
             (executeSQLRequest decodeBase64 fetch src)
             (List.length stmts)
             (orDefault (delayMs options) DEFAULT_DELAY_MS)
             (orDefault (stopOnError options) false) stmts tokenError
             0 _ w j sql later); [reflexivity | | exact Hsub].
  intros q. exists (remote w). split; [|reflexivity].
  unfold executeSQLRequest.
  rewrite (token_failure_result decodeBase64 _ _ Hc He Hk).
  destruct (remote w); reflexivity.
Qed.

End RequestFacts.

(** ** Concrete instances for the token and the request *)

Lemma token_is_cached_witness :
  getAccessToken decodeSample noCredentials (Some (lit "sbp_1234"))
  = (Normal (lit "sbp_1234"), Some (lit "sbp_1234")).
Proof.
  apply (@token_is_cached decodeSample
           {| envToken := Some (lit "sbp_1234");
              keychain := Normal (lit "sbp_other") |}
           None (lit "sbp_1234") (Some (lit "sbp_1234")));
    [reflexivity | discriminate].
Defined.

Lemma clear_then_env_witness :
  getAccessToken decodeSample
    {| envToken := Some (lit "sbp_env");
       keychain := Normal (lit "go-keyring-base64:c2JwX2tleQ==") |}
    (clearTokenCache (Some (lit "sbp_old")))
  = (Normal (lit "sbp_env"), Some (lit "sbp_env")).
Proof.
  apply (@clear_then_env_token decodeSample (Some (lit "sbp_old"))
           (Normal (lit "go-keyring-base64:c2JwX2tleQ==")) (lit "sbp_env")).
  discriminate.
Defined.

Lemma keyring_entry_witness :
  getAccessToken decodeSample
    {| envToken := None;
       keychain := Normal (lit "go-keyring-base64:c2JwX2tleQ==" ++ [LF]) |}
    None
  = (Normal (lit "sbp_key"), Some (lit "sbp_key"))
  /\ getAccessToken decodeSample
       {| envToken := None; keychain := Normal (lit " sbp_plain" ++ [LF]) |}
       None
     = (Normal (lit "sbp_plain"), Some (lit "sbp_plain")).
Proof.
  split.
  - apply (proj1 (keyring_entry_is_decoded decodeSample
                    (lit "go-keyring-base64:c2JwX2tleQ==" ++ [LF]))
                 (lit "c2JwX2tleQ==")).
    reflexivity.
  - apply (proj2 (keyring_entry_is_decoded decodeSample
                    (lit " sbp_plain" ++ [LF]))).
    reflexivity.
Defined.


Lemma migration_with_token_witness :
  exists r w',
    runMigration (executeSQLRequest decodeSample offline noCredentials)
      fourStatements noOptions
      {| remote := (Some (lit "sbp_1234"), 0); trace := [] |}
    = (Normal r, w')
    /\ fst (remote w') = Some (lit "sbp_1234").
Proof.
  apply (@migration_with_token_always_returns decodeSample nat offline
           noCredentials (lit "sbp_1234"));
    [reflexivity | discriminate].
Defined.

Lemma migration_without_token_witness :
  runMigration (executeSQLRequest decodeSample offline noCredentials)
    commentFirst noOptions {| remote := (None, 0); trace := [] |}
  = (Throw tokenError,
     {| remote := (None, 0);
        trace := [EvExecuteSQL 1 (lit "DROP TABLE a;") (Throw tokenError)] |}).
Proof.
  apply (@migration_without_token_throws_at_once decodeSample nat offline
           noCredentials (lit "exit status 44") commentFirst noOptions
           {| remote := (None, 0); trace := [] |} 1 (lit "DROP TABLE a;")
           [(2, lit "CREATE TABLE b (id int);");
            (3, lit "CREATE TABLE c (id int);")]);
    reflexivity.
Defined.

(** ** Concrete instances for the executor *)

Lemma statements_run_in_order_witness :
  exists evs later,
    trace (snd (runMigration failSecond fourStatements stopping freshWorld))
    = trace freshWorld ++ evs
    /\ submittedFrom 0 fourStatements = calls evs ++ later
    /\ (orDefault (stopOnError stopping) false = false \/ 1 = 0 ->
        later = []).
Proof.
  exact (@statements_run_in_order nat failSecond fourStatements stopping
           freshWorld _ _ eq_refl).
Defined.

Lemma calls_are_paced_witness :
  exists evs,
    trace (snd (runMigration failSecond fourStatements noOptions freshWorld))
    = trace freshWorld ++ evs
    /\ Paced 300 evs.
Proof.
  exact (@calls_are_paced nat failSecond fourStatements noOptions
           freshWorld _ _ eq_refl).
Defined.

Lemma thrown_call_witness :
  exists evs j sql,
    [EvExecuteSQL 1 (lit "DROP TABLE a;") (Throw tokenError)]
    = [] ++ evs ++ [EvExecuteSQL j sql (Throw tokenError)]
    /\ thrown evs = []
    /\ In (j, sql) (submittedFrom 0 commentFirst).
Proof.
  exact (@thrown_call_ends_the_run _
           (executeSQLRequest decodeSample offline noCredentials)
           commentFirst noOptions {| remote := (None, 0); trace := [] |}
           tokenError _ eq_refl).
Defined.

Lemma parsed_statements_witness :
  exists evs,
    trace (snd (runMigrationFile alwaysOk posixIsAbsolute joinRepo someFiles
                  (lit "migrations/001.sql") noOptions freshWorld))
    = trace freshWorld ++ evs
    /\ calls evs
       = combine (seq 0 (List.length (parseSQLStatements functionScript)))
                 (parseSQLStatements functionScript)
    /\ 2 = List.length (parseSQLStatements functionScript).
Proof.
  exact (@parsed_statements_are_sent_verbatim nat alwaysOk posixIsAbsolute
           joinRepo someFiles (lit "migrations/001.sql") functionScript
           noOptions freshWorld _ _ eq_refl eq_refl (or_introl eq_refl)).
Defined.

Lemma main_success_witness :
  exists evs,
    trace (snd (main alwaysOk posixIsAbsolute joinRepo someFiles
                  [lit "migrations/001.sql"] freshWorld))
    = trace freshWorld ++ evs
    /\ calls evs
       = combine (seq 0 (List.length (parseSQLStatements functionScript)))
                 (parseSQLStatements functionScript)
    /\ failures evs = []
    /\ thrown evs = []
    /\ Paced 200 evs.
Proof.
  exact (@main_success_means_all_ran nat alwaysOk posixIsAbsolute joinRepo
           someFiles (lit "migrations/001.sql") [] functionScript
           freshWorld _ eq_refl eq_refl).
Defined.

(** ** The printed label *)

(** X16.  Without an explicit label, the label printed for a statement
    is, position by position, the first 50 characters of the statement
    with every line feed replaced by a space and every other character
    unchanged, followed by three dots exactly when the statement is longer
    than 50 characters; so it has at most 53 characters and holds no line
    feed.  A non-empty explicit label is printed as it is. *)
Theorem displayLabel_is_short_single_line (sql : jsstring) :
  (forall i, i < 50 ->
     nth_error (displayLabel sql []) i
     = option_map (fun c => if (c =? LF)%N then 32%N else c) (nth_error sql i))
  /\ (List.length sql <= 50 ->
      List.length (displayLabel sql []) = List.length sql)
  /\ (50 < List.length sql -> skipn 50 (displayLabel sql []) = lit "...")
  /\ List.length (displayLabel sql []) <= 53
  /\ ~ In LF (displayLabel sql [])
  /\ (forall label, label <> [] -> displayLabel sql label = label).
Proof.
  unfold displayLabel. cbn [isEmpty].
  split; [|split; [|split; [|split; [|split]]]].
  - intros i Hi.
    destruct (Nat.lt_ge_cases i (List.length sql)) as [Hlt | Hge].
    + rewrite nth_error_app1 by (rewrite length_map, length_firstn; lia).
      rewrite nth_error_map, nth_error_firstn.
      apply Nat.ltb_lt in Hi. now rewrite Hi.
    + assert (Hb : (50 <? List.length sql) = false) by (apply Nat.ltb_ge; lia).
      rewrite Hb, app_nil_r, nth_error_map, nth_error_firstn.
      apply Nat.ltb_lt in Hi. rewrite Hi.
      apply nth_error_None in Hge. now rewrite Hge.
  - intros Hle.
    assert (Hb : (50 <? List.length sql) = false) by now apply Nat.ltb_ge.
    rewrite Hb, app_nil_r, length_map, firstn_all2 by exact Hle.
    reflexivity.
  - intros Hlt.
    assert (Hb : (50 <? List.length sql) = true) by now apply Nat.ltb_lt.
    rewrite Hb, skipn_app, length_map, length_firstn.
    rewrite skipn_all2 by (rewrite length_map, length_firstn; lia).
    replace (50 - Nat.min 50 (List.length sql)) with 0 by lia.
    reflexivity.
  - rewrite length_app, length_map, length_firstn.
    generalize (Nat.le_min_l 50 (List.length sql)).
    generalize (Nat.min 50 (List.length sql)). intros n Hn.
    destruct (50 <? List.length sql); cbn; lia.
  - intros Hin. apply in_app_or in Hin. destruct Hin as [Hin | Hin].
    + apply in_map_iff in Hin. destruct Hin as (c & Hc & _).
      destruct (c =? LF)%N eqn:E; [discriminate|].
      apply N.eqb_neq in E. contradiction.
    + destruct (50 <? List.length sql); simpl in Hin;
        decompose [or] Hin; try discriminate; contradiction.
  - intros label Hne. destruct label; [contradiction | reflexivity].
Qed.

(** ** The dashboard page *)

(** X17.  The "expiring" figure of the page counts every domain whose
    badge is not [Active]: the domains expiring within 30 days and also
    the ones already expired. *)
Theorem expiringCount_counts_expired_too
        (Domain : Type) (daysUntilExpiry : Domain -> Z)
        (domains : list Domain) :
  expiringCount daysUntilExpiry domains
  = List.length
      (filter (fun d => match domainStatusBadge daysUntilExpiry d with
                        | Active => false
                        | _ => true
                        end) domains).
Proof.
  unfold expiringCount. f_equal. apply filter_ext. intros d.
  unfold domainStatusBadge.
  destruct (daysUntilExpiry d <? 0)%Z eqn:E0;
    destruct (daysUntilExpiry d <? 30)%Z eqn:E30; try reflexivity.
  apply Z.ltb_lt in E0. apply Z.ltb_ge in E30. lia.
Qed.

(** ** Runs in which nothing is submitted *)

Section NothingToRun.

Variable W : Type.
Variable endpoint : jsstring -> W -> Completion ExecResult * W.
Variable isAbsolute : jsstring -> bool.
Variable joinCwd : jsstring -> jsstring.
Variable files : jsstring -> FileEntry.

Lemma runLoop_all_skipped len ms stop rest :
  Forall (fun s => skipped s = true) rest ->
  forall i acc (w : World W),
  runLoop endpoint len ms stop i rest acc w = (Normal acc, w).
Proof.
  induction 1 as [|s rest Hs _ IH]; intros i acc w; [reflexivity|].
  now rewrite runLoop_cons, Hs.
Qed.

(** X18.  An array that holds only blank strings and comment lines is
    run without touching the endpoint: no call, no delay, no need for a
    credential; the result counts the elements in [total] and nothing
    else. *)
Theorem only_skipped_statements_do_nothing stmts options (w : World W) :
  Forall (fun s => skipped s = true) stmts ->
  runMigration endpoint stmts options w
  = (Normal {| total := List.length stmts; successful := 0; failed := 0;
               errors := [] |}, w).
Proof.
  intros H. rewrite runMigration_run.
  now rewrite runLoop_all_skipped by exact H.
Qed.

(** X19.  A file that holds only comments and blank lines is a
    successful empty migration: [runMigrationFile] returns all counts zero
    with an empty error list and does nothing, and it is told apart from a
    missing file only by that empty error list. *)
Theorem comment_only_file_is_empty_migration
        filePath sql options (w : World W) :
  files (resolvePath isAbsolute joinCwd filePath) = Readable sql ->
  Forall (fun l => skipped l = true) (split LF sql) ->
  runMigrationFile endpoint isAbsolute joinCwd files filePath options w
  = (Normal {| total := 0; successful := 0; failed := 0; errors := [] |}, w).
Proof.
  intros Hfile Hlines.
  rewrite runMigrationFile_readable with (sql := sql) by exact Hfile.
  unfold parseSQLStatements.
  rewrite scanLines_all_skipped by (auto; reflexivity).
  reflexivity.
Qed.

End NothingToRun.

Lemma only_skipped_witness :
  runMigration (executeSQLRequest decodeSample offline noCredentials)
    [lit "-- nothing to do"; lit "   "] stopping
    {| remote := (None, 0); trace := [] |}
  = (Normal {| total := 2; successful := 0; failed := 0; errors := [] |},
     {| remote := (None, 0); trace := [] |}).
Proof.
  apply (@only_skipped_statements_do_nothing _
           (executeSQLRequest decodeSample offline noCredentials)
           [lit "-- nothing to do"; lit "   "] stopping
           {| remote := (None, 0); trace := [] |}).
  repeat constructor.
Defined.

Lemma comment_only_file_witness :
  runMigrationFile alwaysOk posixIsAbsolute joinRepo
    (fun _ => Readable commentScript) (lit "notes.sql") noOptions freshWorld
  = (Normal {| total := 0; successful := 0; failed := 0; errors := [] |},
     freshWorld).
Proof.
  apply (@comment_only_file_is_empty_migration nat alwaysOk posixIsAbsolute
           joinRepo (fun _ => Readable commentScript) (lit "notes.sql")
           commentScript noOptions freshWorld).
  - reflexivity.
  - repeat constructor.
Defined.
